(** * mopo utility functions and the text selector: a verification development

    The helpers of [mopo/src/utils.h] are written against [mopo_float], a
    floating-point type that the build selects.  They are embedded once,
    over a class of arithmetic operations, and read at three semantics:

    - [IEEE]: binary64 values ([spec_float]) with correctly rounded
      operations, executable;
    - [Ideal]: the real numbers, every operation exact;
    - [Rounded]: the real numbers with a rounding after every operation
      (the standard model of floating-point arithmetic, and what rounding
      to nearest adds to it).

    [TextSelector::mouseEvent] of [editor_components/text_selector.cpp] is
    embedded in module [TextSelector]. *)

From Stdlib Require Import ZArith QArith List Bool Lia.
From Stdlib Require Import Reals Lra Psatz.
From Stdlib Require Import SpecFloat.
Import ListNotations.

Close Scope Q_scope.

(** ** The arithmetic a [mopo_float] offers *)

(** Operations of the C++ arithmetic type the helpers are compiled for. *)
Class MopoFloat (T : Type) : Type := {
  mf_add : T -> T -> T;
  mf_sub : T -> T -> T;
  mf_mul : T -> T -> T;
  mf_div : T -> T -> T;
  mf_neg : T -> T;
  (** [fabs] and [std::abs] *)
  mf_abs : T -> T;
  (** conversion of an [int] operand *)
  mf_int : Z -> T;
  (** the literal [d * 10^-k] of type double, e.g. [0.776] is [dec 776 3] *)
  dec : positive -> nat -> T;
  (** the same literal with the suffix [f]: a float constant, widened *)
  decf : positive -> nat -> T
}.

(** The comparisons [<] and [<=]; [a > b] is [b < a], [a >= b] is [b <= a]. *)
Class MopoCmp (T : Type) : Type := {
  mf_ltb : T -> T -> bool;
  mf_leb : T -> T -> bool
}.

(** The functions of [<cmath>] that the conversions call. *)
Class Libm (T : Type) : Type := {
  c_log10 : T -> T;
  c_log : T -> T;
  c_pow : T -> T -> T
}.

Declare Scope mopo_scope.
Delimit Scope mopo_scope with mopo.
Infix "+" := mf_add : mopo_scope.
Infix "-" := mf_sub : mopo_scope.
Infix "*" := mf_mul : mopo_scope.
Infix "/" := mf_div : mopo_scope.
Notation "- x" := (mf_neg x) : mopo_scope.
Infix "<" := mf_ltb : mopo_scope.
Infix "<=" := mf_leb : mopo_scope.

(** ** utils.h *)

Module utils.

(** The buffer functions see memory as a list of cells; a pointer is an
    index into it.  [store] writes one cell. *)
Fixpoint store {A : Type} (mem : list A) (i : nat) (v : A) : list A :=
  match mem, i with
  | [], _ => []
  | _ :: rest, O => v :: rest
  | x :: rest, S j => x :: store rest j v
  end.

(** The loop [for (int i = 0; i < size; ++i) buffer[i] = zero;] from
    index [i] with [remaining] iterations to go; a write outside the
    buffer has no defined result. *)
Fixpoint fill_loop {A : Type} (zero : A) (buffer : list A) (i remaining : nat)
  : option (list A) :=
  match remaining with
  | O => Some buffer
  | S r =>
      if (i <? List.length buffer)%nat
      then fill_loop zero (store buffer i zero) (S i) r
      else None
  end.

(** The loop [for (int i = 0; i < size; ++i) dest[i] = source[i];] on a
    memory that holds both buffers, [dest] and [source] being the indices
    they start at; a read or write outside the memory has no defined
    result. *)
Fixpoint copy_loop {A : Type} (mem : list A) (dest source i remaining : nat)
  : option (list A) :=
  match remaining with
  | O => Some mem
  | S r =>
      match nth_error mem (source + i) with
      | None => None
      | Some v =>
          if (dest + i <? List.length mem)%nat
          then copy_loop (store mem (dest + i) v) dest source (S i) r
          else None
      end
  end.

(** [zeroBuffer(int* buffer, int size)]. *)
Definition zeroBuffer_int (buffer : list Z) (size : Z) : option (list Z) :=
  fill_loop 0%Z buffer 0 (Z.to_nat size).

(** [copyBufferf(float* dest, const float* source, int size)], for any
    type of cell. *)
Definition copyBufferf {F : Type} (mem : list F) (dest source : nat) (size : Z)
  : option (list F) :=
  copy_loop mem dest source 0 (Z.to_nat size).

Section Generic.
Context {T : Type} {ops : MopoFloat T}.
Local Open Scope mopo_scope.

Definition EPSILON : T := dec 1 16.
Definition DB_GAIN_CONVERSION_MULT : T := dec 200 1.
Definition MIDI_0_FREQUENCY : T := dec 81757989156 10.
Definition NOTES_PER_OCTAVE : Z := 12.
Definition CENTS_PER_NOTE : Z := 100.
Definition CENTS_PER_OCTAVE : Z := (NOTES_PER_OCTAVE * CENTS_PER_NOTE)%Z.
Definition MAX_Q_POW : T := dec 40 1.
Definition MIN_Q_POW : T := - dec 10 1.

(** Modelled from the spec: the macro [INTERPOLATE] of [common.h], which is
    not among the sources; the spec calls it [lerp(-1, 4, magnitude)], the
    linear interpolation from the first argument to the second. *)
Definition INTERPOLATE (s e f : T) : T := s + f * (e - s).

Section Comparisons.
Context {cmp : MopoCmp T}.

(** [std::min(a, b)] is [(b < a) ? b : a], [std::max(a, b)] is
    [(a < b) ? b : a]. *)
Definition std_min (a b : T) : T := if b < a then b else a.
Definition std_max (a b : T) : T := if a < b then b else a.

(** [_mm_min_sd(a, b)] is [a < b ? a : b] and [_mm_max_sd(a, b)] is
    [a > b ? a : b] on the low lane: the second operand is returned when
    the comparison fails (also for a NaN and for two zeros). *)
Definition mm_min_sd (a b : T) : T := if a < b then a else b.
Definition mm_max_sd (a b : T) : T := if b < a then a else b.

(** The branch [#ifdef __SSE2__]. *)
Definition sse_min (one two : T) : T := mm_min_sd one two.
Definition sse_max (one two : T) : T := mm_max_sd one two.
Definition sse_clamp (value min max : T) : T :=
  mm_min_sd (mm_max_sd value min) max.

(** The branch [#else]. *)
Definition min (one two : T) : T := std_min one two.
Definition max (one two : T) : T := std_max one two.
Definition clamp (value min max : T) : T :=
  std_min max (std_max value min).

Definition closeToZero (value : T) : bool :=
  (value <= EPSILON) && (- EPSILON <= value).

(** The loop of [isSilent] from index [i] with [remaining] iterations to
    go; a read outside the buffer has no defined result. *)
Fixpoint isSilent_loop (buffer : list T) (i remaining : nat) : option bool :=
  match remaining with
  | O => Some true
  | S r =>
      match nth_error buffer i with
      | None => None
      | Some v =>
          if closeToZero v then isSilent_loop buffer (S i) r else Some false
      end
  end.

Definition isSilent (buffer : list T) (length : Z) : option bool :=
  isSilent_loop buffer 0 (Z.to_nat length).

End Comparisons.

(** The literal [0.0]: positive zero, the conversion of the integer 0. *)
Definition zero_literal : T := mf_int 0.

(** [zeroBuffer(mopo_float* buffer, int size)]. *)
Definition zeroBuffer (buffer : list T) (size : Z) : option (list T) :=
  fill_loop zero_literal buffer 0 (Z.to_nat size).

(** [copyBuffer(mopo_float* dest, const mopo_float* source, int size)]. *)
Definition copyBuffer (mem : list T) (dest source : nat) (size : Z)
  : option (list T) :=
  copy_loop mem dest source 0 (Z.to_nat size).

Definition iclamp (value min max : Z) : T :=
  mf_int (if (max <? value)%Z then max
          else if (value <? min)%Z then min else value).

Section Conversions.
Context {libm : Libm T}.

Definition gainToDb (gain : T) : T :=
  DB_GAIN_CONVERSION_MULT * c_log10 gain.

Definition dbToGain (decibels : T) : T :=
  c_pow (dec 100 1) (decibels / DB_GAIN_CONVERSION_MULT).

Definition centsToRatio (cents : T) : T :=
  c_pow (dec 20 1) (cents / mf_int CENTS_PER_OCTAVE).

Definition midiCentsToFrequency (cents : T) : T :=
  MIDI_0_FREQUENCY * centsToRatio cents.

Definition midiNoteToFrequency (note : T) : T :=
  midiCentsToFrequency (note * mf_int CENTS_PER_NOTE).

Definition frequencyToMidiNote (frequency : T) : T :=
  mf_int NOTES_PER_OCTAVE * c_log (frequency / MIDI_0_FREQUENCY)
  / c_log (dec 20 1).

Definition frequencyToMidiCents (frequency : T) : T :=
  mf_int CENTS_PER_NOTE * frequencyToMidiNote frequency.

Definition magnitudeToQ (magnitude : T) : T :=
  c_pow (dec 20 1) (INTERPOLATE MIN_Q_POW MAX_Q_POW magnitude).

Definition qToMagnitude (q : T) : T :=
  (c_pow (dec 5 1) q - MIN_Q_POW) / (MAX_Q_POW - MIN_Q_POW).

End Conversions.

Definition quickertanh (value : T) : T :=
  let square := value * value in
  value / (dec 10 1 + square / (dec 30 1 + square / dec 50 1)).

Definition quicktanh (value : T) : T :=
  let abs_value := mf_abs value in
  let square := value * value in
  let num := value * (decf 245550750702956 14
                      + decf 245550750702956 14 * abs_value
                      + square * (decf 893229853513558 15
                                  + decf 821226666969744 15 * abs_value)) in
  let den := decf 244506634652299 14
             + (decf 244506634652299 14 + square)
               * mf_abs (value + decf 814642734961073 15 * value * abs_value) in
  num / den.

Definition quickerSin (phase : T) : T :=
  phase * (dec 80 1 - dec 160 1 * mf_abs phase).

Definition quickSin (phase : T) : T :=
  let approx := quickerSin phase in
  approx * (dec 776 3 + dec 224 3 * mf_abs approx).

Definition quickerSin1 (phase : T) : T :=
  let phase := dec 5 1 - phase in
  phase * (dec 80 1 - dec 160 1 * mf_abs phase).

Definition quickSin1 (phase : T) : T :=
  let approx := quickerSin1 phase in
  approx * (dec 776 3 + dec 224 3 * mf_abs approx).

End Generic.
End utils.

(** ** Binary64 semantics *)

Module IEEE.

Definition prec : Z := 53.
Definition emax : Z := 1024.

(** A decimal literal [d * 10^-k] is converted by one correctly rounded
    division of the integer [d] by the integer [10^k]; neither integer is
    rounded beforehand. *)
Definition pow10 (k : nat) : positive := Nat.iter k (Pos.mul 10) 1%positive.

Definition literal (p e : Z) (d : positive) (k : nat) : spec_float :=
  SFdiv p e (S754_finite false d 0) (S754_finite false (pow10 k) 0).

(** Widening a float to a double is exact: the value is put in the
    canonical form of the wider format. *)
Definition widen (x : spec_float) : spec_float := SFldexp prec emax x 0.

#[export] Instance ops : MopoFloat spec_float := {
  mf_add := SFadd prec emax;
  mf_sub := SFsub prec emax;
  mf_mul := SFmul prec emax;
  mf_div := SFdiv prec emax;
  mf_neg := SFopp;
  mf_abs := SFabs;
  mf_int := fun z => binary_normalize prec emax z 0 false;
  dec := literal prec emax;
  decf := fun d k => widen (literal 24 128 d k)
}.

#[export] Instance cmp : MopoCmp spec_float := {
  mf_ltb := SFltb;
  mf_leb := SFleb
}.

Definition is_nan (x : spec_float) : bool :=
  match x with S754_nan => true | _ => false end.

(** Finite values: the zeros and the normal and subnormal numbers. *)
Definition is_finite (x : spec_float) : bool :=
  match x with S754_zero _ | S754_finite _ _ _ => true | _ => false end.

(** The real number a finite value stands for; the zeros stand for 0. *)
Definition to_real (x : spec_float) : R :=
  match x with
  | S754_finite s m e => (IZR (cond_Zopp s (Zpos m)) * powerRZ 2 e)%R
  | _ => 0%R
  end.

Definition one : spec_float := literal prec emax 1 0.
Definition half : spec_float := literal prec emax 5 1.
Definition quarter : spec_float := literal prec emax 25 2.
Definition pos_zero : spec_float := S754_zero false.
Definition neg_zero : spec_float := S754_zero true.
Definition neg_infinity : spec_float := S754_infinity true.

(** The results that the C standard (Annex F) fixes for [log10]: a pole
    at either zero, NaN below zero, and the infinity and NaN passed on.
    Elsewhere the value is the library's. *)
Definition log10_special (x : spec_float) : option spec_float :=
  match x with
  | S754_zero _ => Some neg_infinity
  | S754_nan => Some S754_nan
  | S754_infinity false => Some (S754_infinity false)
  | S754_infinity true => Some S754_nan
  | S754_finite true _ _ => Some S754_nan
  | S754_finite false _ _ => None
  end.

(** A library whose [log10] has these results. *)
Definition conforming (libm : Libm spec_float) : Prop :=
  forall x r, log10_special x = Some r -> c_log10 x = r.

(** The least library there is: the fixed results, and NaN elsewhere. *)
Definition skeleton_libm : Libm spec_float := {|
  c_log10 := fun x =>
    match log10_special x with Some r => r | None => S754_nan end;
  c_log := fun _ => S754_nan;
  c_pow := fun _ _ => S754_nan
|}.

End IEEE.

(** ** Exact real semantics *)

Module Ideal.

(** The operations are exact.  A literal of type double stands for its
    decimal value.  A literal with the suffix [f] is a float constant: it
    stands for the binary32 number the compiler rounds it to, which is
    the value the code computes with, some 10^-8 away from the decimal. *)
#[export] Instance ops : MopoFloat R := {
  mf_add := Rplus;
  mf_sub := Rminus;
  mf_mul := Rmult;
  mf_div := Rdiv;
  mf_neg := Ropp;
  mf_abs := Rabs;
  mf_int := IZR;
  dec := fun d k => (IZR (Zpos d) / 10 ^ k)%R;
  decf := fun d k => IEEE.to_real (IEEE.literal 24 128 d k)
}.

(** [pow(b, y)] for a positive base [b] is [exp (y * ln b)]. *)
#[export] Instance libm : Libm R := {
  c_log10 := fun x => (ln x / ln 10)%R;
  c_log := ln;
  c_pow := Rpower
}.

End Ideal.


(** ** Real semantics with rounding: the standard model *)

Module Rounded.
Section Model.
Open Scope R_scope.

(** [rnd] rounds a real result to the format; [lg10], [lg] and [pw] are
    the library's [log10], [log] and [pow].  Negation, [fabs] and the
    conversion of an [int] are exact.  A literal with the suffix [f] is
    the binary32 number it is rounded to, taken into the format. *)
Variable rnd : R -> R.
Variables lg10 lg : R -> R.
Variable pw : R -> R -> R.

Definition ops : MopoFloat R := {|
  mf_add := fun x y => rnd (x + y);
  mf_sub := fun x y => rnd (x - y);
  mf_mul := fun x y => rnd (x * y);
  mf_div := fun x y => rnd (x / y);
  mf_neg := Ropp;
  mf_abs := Rabs;
  mf_int := IZR;
  dec := fun d k => rnd (IZR (Zpos d) / 10 ^ k);
  decf := fun d k => rnd (IEEE.to_real (IEEE.literal 24 128 d k))
|}.

Definition libm : Libm R := {|
  c_log10 := lg10;
  c_log := lg;
  c_pow := pw
|}.

(** [x'] approximates [x] with relative error at most [u]. *)
Definition rel_err (u x' x : R) : Prop := Rabs (x' - x) <= u * Rabs x.

(** The magnitudes of the normal binary64 numbers. *)
Definition normal (x : R) : Prop := / 2 ^ 1022 <= Rabs x <= 2 ^ 1023.

(** The standard model with unit roundoff [u]: on normal numbers every
    rounding, and the library's [log] and [pow] wherever the exact result
    is normal, has relative error at most [u]. *)
Record standard_model (u : R) : Prop := {
  u_nonneg : 0 <= u;
  rnd_accurate : forall x, normal x -> rel_err u (rnd x) x;
  log_accurate :
    forall x, normal x -> normal (ln x) -> rel_err u (lg x) (ln x);
  pow_accurate :
    forall b y, 0 < b -> normal (Rpower b y) ->
                rel_err u (pw b y) (Rpower b y)
}.

(** What rounding to nearest, ties to even, adds to the standard model:
    it is monotone, odd and idempotent; the small integers of the sine
    helpers and the least normal number are representable; multiplying a
    representable number of magnitude at most 1/2 by 16 is exact; and
    [1 + u], half way between 1 and its successor, is rounded down to
    1. *)
Record nearest_even (u : R) : Prop := {
  ne_roundoff : 0 <= u;
  ne_accurate : forall x, normal x -> rel_err u (rnd x) x;
  ne_monotone : forall x y, x <= y -> rnd x <= rnd y;
  ne_odd : forall x, rnd (- x) = - rnd x;
  ne_idempotent : forall x, rnd (rnd x) = rnd x;
  ne_integers : rnd 0 = 0 /\ rnd 1 = 1 /\ rnd 8 = 8 /\ rnd 16 = 16;
  ne_least_normal : rnd (/ 2 ^ 1022) = / 2 ^ 1022;
  ne_scale : forall x, rnd x = x -> Rabs x <= 1 / 2 -> rnd (16 * x) = 16 * x;
  ne_tie_at_one : rnd (1 + u) <= 1
}.

(** The two weights of [quickSin], as rounded literals, add up to at
    most one in the format. *)
Definition weights_within_unit : Prop :=
  rnd (rnd (776 / 10 ^ 3) + rnd (224 / 10 ^ 3)) <= 1.

(** [x'] is [x] up to a factor [exp t] with [|t| <= eps]: relative error
    on the logarithmic scale, which adds up under products and quotients. *)
Definition log_close (eps x' x : R) : Prop :=
  exists t : R, Rabs t <= eps /\ x' = x * exp t.

(** [midiNoteToFrequency (frequencyToMidiNote f)] in this semantics. *)
Definition round_trip (f : R) : R :=
  @utils.midiNoteToFrequency R ops libm
    (@utils.frequencyToMidiNote R ops libm f).

End Model.

(** One model with a genuine error in every operation: each result is
    off by one part in [10^13]. *)
Definition sample_rnd (x : R) : R := (x * (1 + / 10 ^ 13))%R.
Definition sample_log (x : R) : R := (ln x * (1 + / 10 ^ 13))%R.
Definition sample_pow (b y : R) : R := (Rpower b y * (1 - / 10 ^ 13))%R.

End Rounded.

(** ** text_selector.cpp *)

Module TextSelector.

(** What [mouseEvent] reads of the slider it extends: the inclusive range
    of the parameter and the width of the component in pixels. *)
Record TextSelector : Type := {
  getMinimum : Z;
  getMaximum : Z;
  getWidth : Z
}.

(** The call the handler makes on the slider. *)
Inductive request : Type :=
| setValue (index : Z).

(** Conversion of a floating-point value to [int]: the fraction is
    discarded. *)
Definition to_int (q : Q) : Z := Z.quot (Qnum q) (Zpos (Qden q)).

(** [float x = e.getPosition().getX();
     int index = x * (getMaximum() + 1) / getWidth();
     setValue(index);]
    with the arithmetic exact; a width of zero leaves the conversion to
    [int] without a defined result. *)
Definition mouseEvent (w : TextSelector) (x : Z) : option request :=
  if (getWidth w =? 0)%Z then None
  else
    let index :=
      to_int (inject_Z x * (inject_Z (getMaximum w) + 1)
              / inject_Z (getWidth w))%Q in
    Some (setValue index).

(** The cells as [paint] lays them out:
    [int num_types = getMaximum() - getMinimum() + 1;
     float cell_width = float(getWidth()) / num_types;]
    and cell [i], for [0 <= i < num_types], is drawn from
    [i * cell_width] over a width of [cell_width]. *)
Definition num_types (w : TextSelector) : Z :=
  getMaximum w - getMinimum w + 1.

Definition cell_width (w : TextSelector) : Q :=
  (inject_Z (getWidth w) / inject_Z (num_types w))%Q.

Definition in_cell (w : TextSelector) (i x : Z) : Prop :=
  (inject_Z i * cell_width w <= inject_Z x)%Q
  /\ (inject_Z x < (inject_Z i + 1) * cell_width w)%Q.

(** The rectangle that [paint] fills behind the selected entry,
    [g.fillRect(selected * cell_width, 0.0f, cell_width, height)], as its
    left edge and its width; [selected] is the value of the slider. *)
Definition highlight (w : TextSelector) (selected : Z) : Q * Q :=
  (inject_Z selected * cell_width w, cell_width w)%Q.

(** [mouseDown] and [mouseDrag] pass their event on to [mouseEvent]. *)
Definition mouseDown (w : TextSelector) (x : Z) : option request :=
  mouseEvent w x.

Definition mouseDrag (w : TextSelector) (x : Z) : option request :=
  mouseEvent w x.

(** The index as the specification words it:
    [pointerX * (maximum - minimum + 1) / widgetWidth]. *)
Definition spec_index (w : TextSelector) (x : Z) : Z :=
  to_int (inject_Z x * (inject_Z (getMaximum w) - inject_Z (getMinimum w) + 1)
          / inject_Z (getWidth w))%Q.

End TextSelector.

(** ** Properties the functions are checked against *)

Module Props.
Import IEEE.

(** [lo <= x <= hi] in the order of the floating-point comparisons. *)
Definition between (lo x hi : spec_float) : Prop :=
  SFleb lo x = true /\ SFleb x hi = true.

(** What is asked of a clamp [r] of [a] to [[lo, hi]]: it lies in the
    range, compares equal to [a] when [a] does, and compares equal to the
    bound that [a] is beyond otherwise. *)
Definition clamps (r a lo hi : spec_float) : Prop :=
  between lo r hi
  /\ (between lo a hi -> SFeqb r a = true)
  /\ (SFltb a lo = true -> SFeqb r lo = true)
  /\ (SFltb hi a = true -> SFeqb r hi = true).

(** [v] has an absolute value of at most the real number [bound]; an
    infinity and NaN have not. *)
Definition magnitude_at_most (v : spec_float) (bound : R) : Prop :=
  match v with
  | S754_zero _ => (0 <= bound)%R
  | S754_finite _ _ _ => (Rabs (to_real v) <= bound)%R
  | _ => False
  end.

(** The second stage, the same in both backends: the upper bound. *)
Definition upper (m hi : spec_float) : spec_float :=
  if SFltb m hi then m else hi.

(** [f] has a bounded magnitude over the reals. *)
Definition bounded (f : R -> R) : Prop :=
  exists B : R, forall x : R, (Rabs (f x) <= B)%R.

(** [f x] approaches [L] as [x] grows without bound, upwards and
    downwards. *)
Definition tends_at_pinf (f : R -> R) (L : R) : Prop :=
  forall eps : R, (0 < eps)%R ->
  exists M : R, forall x : R, (M < x)%R -> (Rabs (f x - L) < eps)%R.

Definition tends_at_ninf (f : R -> R) (L : R) : Prop :=
  forall eps : R, (0 < eps)%R ->
  exists M : R, forall x : R, (x < M)%R -> (Rabs (f x - L) < eps)%R.

(** A soft clipper to the unit: bounded, approaching 1 and -1. *)
Definition clips_to_unit (f : R -> R) : Prop :=
  bounded f /\ tends_at_pinf f 1 /\ tends_at_ninf f (-1).

(** The shape of [quicktanh]: an odd quotient with the coefficients [a],
    [b], [c] in the numerator and [d], [k] in the denominator. *)
Definition odd_quotient (a b c d k x : R) : R :=
  (x * (a + a * Rabs x + x * x * (b + c * Rabs x))
   / (d + (d + x * x) * Rabs (x + k * x * Rabs x)))%R.

(** The coefficients of [quicktanh] as the code holds them: the binary32
    numbers nearest to [2.45550750702956], [0.893229853513558],
    [0.821226666969744], [2.44506634652299] and [0.814642734961073]. *)
Definition qa : R := (10299145 / 2 ^ 22)%R.
Definition qb : R := (14985910 / 2 ^ 24)%R.
Definition qc : R := (13777897 / 2 ^ 24)%R.
Definition qd : R := (10255352 / 2 ^ 22)%R.
Definition qk : R := (13667437 / 2 ^ 24)%R.

(** Numerator and denominator of [quicktanh] on the non-negative
    half-line, where the absolute values disappear. *)
Definition halfline_num (x : R) : R :=
  (x * (qa + qa * x + x * x * (qb + qc * x)))%R.
Definition halfline_den (x : R) : R :=
  (qd + (qd + x * x) * (x + qk * x * x))%R.

(** The ratio of the leading coefficients of [quicktanh],
    [13777897 / 13667437], about 1.00808198. *)
Definition quicktanh_limit : R := (qc / qk)%R.

End Props.

(** ** The order of binary floating-point values *)

Module FloatOrder.
Import IEEE.

Lemma finite_not_nan x : is_finite x = true -> is_nan x = false.
Proof. now destruct x. Qed.

(** Case analysis on every integer comparison in sight. *)
Ltac order_cases :=
  change (Pos.compare_cont Eq) with Pos.compare in *;
  repeat match goal with
  | H : context [Z.compare ?a ?b] |- _ =>
      destruct (Z.compare_spec a b); subst
  | |- context [Z.compare ?a ?b] =>
      destruct (Z.compare_spec a b); subst
  | H : context [Pos.compare ?a ?b] |- _ =>
      destruct (Pos.compare_spec a b); subst
  | |- context [Pos.compare ?a ?b] =>
      destruct (Pos.compare_spec a b); subst
  end;
  cbn [CompOpp] in *; try discriminate; try reflexivity; try lia.

Ltac by_float_cases x y :=
  destruct x as [[]|[]| |[] ?m ?e], y as [[]|[]| |[] ?m ?e]; simpl;
  try discriminate; try reflexivity.

Lemma SFcompare_refl x : is_nan x = false -> SFcompare x x = Some Eq.
Proof.
  destruct x as [[]|[]| |[] m e]; simpl; intros Hn; try discriminate;
    try reflexivity; f_equal; order_cases.
Qed.

Lemma SFcompare_swap x y :
  SFcompare y x = option_map CompOpp (SFcompare x y).
Proof. by_float_cases x y; f_equal; order_cases. Qed.

Lemma SFcompare_total x y :
  is_nan x = false -> is_nan y = false -> exists c, SFcompare x y = Some c.
Proof. by_float_cases x y; intros; try discriminate; eexists; reflexivity. Qed.

Lemma SFcompare_lt_trans x y z :
  SFcompare x y = Some Lt -> SFcompare y z = Some Lt ->
  SFcompare x z = Some Lt.
Proof.
  by_float_cases x y; destruct z as [[]|[]| |[] mz ez]; simpl;
    try discriminate; try reflexivity;
    intros H1 H2; injection H1 as H1; injection H2 as H2; f_equal;
    order_cases.
Qed.

Lemma SFcompare_eq_lt_trans x y z :
  SFcompare x y = Some Eq -> SFcompare y z = Some Lt ->
  SFcompare x z = Some Lt.
Proof.
  by_float_cases x y; destruct z as [[]|[]| |[] mz ez]; simpl;
    try discriminate; try reflexivity;
    intros H1 H2; injection H1 as H1; injection H2 as H2; f_equal;
    order_cases.
Qed.

Lemma SFcompare_lt_eq_trans x y z :
  SFcompare x y = Some Lt -> SFcompare y z = Some Eq ->
  SFcompare x z = Some Lt.
Proof.
  by_float_cases x y; destruct z as [[]|[]| |[] mz ez]; simpl;
    try discriminate; try reflexivity;
    intros H1 H2; injection H1 as H1; injection H2 as H2; f_equal;
    order_cases.
Qed.

Lemma SFcompare_eq_trans x y z :
  SFcompare x y = Some Eq -> SFcompare y z = Some Eq ->
  SFcompare x z = Some Eq.
Proof.
  by_float_cases x y; destruct z as [[]|[]| |[] mz ez]; simpl;
    try discriminate; try reflexivity;
    intros H1 H2; injection H1 as H1; injection H2 as H2; f_equal;
    order_cases.
Qed.

(** The boolean comparisons in terms of [SFcompare]. *)
Lemma SFltb_true x y : SFltb x y = true <-> SFcompare x y = Some Lt.
Proof.
  unfold SFltb; destruct (SFcompare x y) as [[]|]; split; congruence.
Qed.

Lemma SFleb_true x y :
  SFleb x y = true <-> SFcompare x y = Some Lt \/ SFcompare x y = Some Eq.
Proof.
  unfold SFleb; destruct (SFcompare x y) as [[]|]; split;
    intuition congruence.
Qed.

Lemma SFeqb_true x y : SFeqb x y = true <-> SFcompare x y = Some Eq.
Proof.
  unfold SFeqb; destruct (SFcompare x y) as [[]|]; split; congruence.
Qed.

Lemma SFleb_refl x : is_nan x = false -> SFleb x x = true.
Proof. intros H; apply SFleb_true; right; now apply SFcompare_refl. Qed.

Lemma SFeqb_refl x : is_nan x = false -> SFeqb x x = true.
Proof. intros H; apply SFeqb_true; now apply SFcompare_refl. Qed.

Lemma SFltb_leb x y : SFltb x y = true -> SFleb x y = true.
Proof. rewrite SFltb_true, SFleb_true; auto. Qed.

Lemma SFltb_asym x y : SFltb x y = true -> SFltb y x = false.
Proof.
  rewrite SFltb_true; intros H; unfold SFltb.
  rewrite (SFcompare_swap x y), H; reflexivity.
Qed.

Lemma SFltb_false_leb x y :
  is_nan x = false -> is_nan y = false ->
  SFltb x y = false -> SFleb y x = true.
Proof.
  intros Hx Hy; destruct (SFcompare_total x y Hx Hy) as [c Hc].
  unfold SFltb, SFleb; rewrite (SFcompare_swap x y), Hc.
  destruct c; simpl; congruence.
Qed.

Lemma SFleb_not_ltb_eqb x y :
  SFleb x y = true -> SFltb x y = false -> SFeqb x y = true.
Proof.
  unfold SFleb, SFltb, SFeqb; destruct (SFcompare x y) as [[]|]; congruence.
Qed.

Lemma SFeqb_sym x y : SFeqb x y = true -> SFeqb y x = true.
Proof.
  unfold SFeqb; rewrite (SFcompare_swap x y).
  destruct (SFcompare x y) as [[]|]; simpl; congruence.
Qed.

Lemma SFeqb_leb x y : SFeqb x y = true -> SFleb x y = true.
Proof. rewrite SFeqb_true, SFleb_true; auto. Qed.

Lemma SFleb_ltb_trans x y z :
  SFleb x y = true -> SFltb y z = true -> SFltb x z = true.
Proof.
  rewrite SFleb_true, !SFltb_true; intros [H|H] H';
    eauto using SFcompare_lt_trans, SFcompare_eq_lt_trans.
Qed.

Lemma SFltb_leb_trans x y z :
  SFltb x y = true -> SFleb y z = true -> SFltb x z = true.
Proof.
  rewrite SFleb_true, !SFltb_true; intros H [H'|H'];
    eauto using SFcompare_lt_trans, SFcompare_lt_eq_trans.
Qed.

Lemma SFeqb_trans x y z :
  SFeqb x y = true -> SFeqb y z = true -> SFeqb x z = true.
Proof. rewrite !SFeqb_true; apply SFcompare_eq_trans. Qed.

Lemma SFleb_trans x y z :
  SFleb x y = true -> SFleb y z = true -> SFleb x z = true.
Proof.
  rewrite !SFleb_true; intros [H|H] [H'|H'];
    eauto using SFcompare_lt_trans, SFcompare_eq_lt_trans,
                SFcompare_lt_eq_trans, SFcompare_eq_trans.
Qed.

Lemma SFleb_ltb_false x y : SFleb x y = true -> SFltb y x = false.
Proof.
  unfold SFleb, SFltb; rewrite (SFcompare_swap x y).
  destruct (SFcompare x y) as [[]|]; simpl; congruence.
Qed.

Lemma SFltb_not_nan x y :
  SFltb x y = true -> is_nan x = false /\ is_nan y = false.
Proof. by_float_cases x y; intros; split; reflexivity. Qed.

Lemma SFleb_not_nan x y :
  SFleb x y = true -> is_nan x = false /\ is_nan y = false.
Proof. by_float_cases x y; intros; split; reflexivity. Qed.

End FloatOrder.

(** ** clamp, both backends *)

Module ClampFacts.
Import IEEE FloatOrder Props.

Lemma clamp_stages a lo hi :
  utils.clamp a lo hi = upper (utils.std_max a lo) hi.
Proof. reflexivity. Qed.

Lemma sse_clamp_stages a lo hi :
  utils.sse_clamp a lo hi = upper (utils.mm_max_sd a lo) hi.
Proof. reflexivity. Qed.

Section Upper.
Variables m hi : spec_float.
Hypothesis Hm : is_nan m = false.
Hypothesis Hhi : is_nan hi = false.

Lemma upper_le : SFleb (upper m hi) hi = true.
Proof.
  unfold upper; destruct (SFltb m hi) eqn:E;
    auto using SFltb_leb, SFleb_refl.
Qed.

Lemma upper_inside : SFleb m hi = true -> SFeqb (upper m hi) m = true.
Proof.
  unfold upper; intros H; destruct (SFltb m hi) eqn:E.
  - now apply SFeqb_refl.
  - apply SFeqb_sym; now apply SFleb_not_ltb_eqb.
Qed.

Lemma upper_above : SFltb hi m = true -> upper m hi = hi.
Proof.
  unfold upper; intros H; now rewrite (SFltb_asym _ _ H).
Qed.

Lemma upper_ge lo :
  SFleb lo m = true -> SFleb lo hi = true -> SFleb lo (upper m hi) = true.
Proof. unfold upper; destruct (SFltb m hi); auto. Qed.

End Upper.

(** The first stage: the lower bound, in the two backends. *)
Section Lower.
Variables a lo : spec_float.
Hypothesis Ha : is_nan a = false.
Hypothesis Hlo : is_nan lo = false.

Lemma std_max_not_nan : is_nan (utils.std_max a lo) = false.
Proof. unfold utils.std_max; now destruct (mf_ltb a lo). Qed.

Lemma mm_max_not_nan : is_nan (utils.mm_max_sd a lo) = false.
Proof. unfold utils.mm_max_sd; now destruct (mf_ltb lo a). Qed.

Lemma std_max_ge : SFleb lo (utils.std_max a lo) = true.
Proof.
  unfold utils.std_max; simpl; destruct (SFltb a lo) eqn:E.
  - now apply SFleb_refl.
  - now apply SFltb_false_leb.
Qed.

Lemma mm_max_ge : SFleb lo (utils.mm_max_sd a lo) = true.
Proof.
  unfold utils.mm_max_sd; simpl; destruct (SFltb lo a) eqn:E.
  - now apply SFltb_leb.
  - now apply SFleb_refl.
Qed.

Lemma std_max_inside : SFleb lo a = true -> utils.std_max a lo = a.
Proof.
  unfold utils.std_max; simpl; intros H.
  now rewrite (SFleb_ltb_false _ _ H).
Qed.

Lemma mm_max_inside :
  SFleb lo a = true -> SFeqb (utils.mm_max_sd a lo) a = true.
Proof.
  unfold utils.mm_max_sd; simpl; intros H; destruct (SFltb lo a) eqn:E.
  - now apply SFeqb_refl.
  - now apply SFleb_not_ltb_eqb.
Qed.

Lemma std_max_below : SFltb a lo = true -> utils.std_max a lo = lo.
Proof. unfold utils.std_max; simpl; now intros ->. Qed.

Lemma mm_max_below : SFltb a lo = true -> utils.mm_max_sd a lo = lo.
Proof.
  unfold utils.mm_max_sd; simpl; intros H; now rewrite (SFltb_asym _ _ H).
Qed.

End Lower.

(** Any first stage with these three properties gives a clamp. *)
Lemma stages_clamp a lo hi m :
  is_nan a = false -> is_nan m = false -> SFleb lo hi = true ->
  SFleb lo m = true ->
  (SFleb lo a = true -> SFeqb m a = true) ->
  (SFltb a lo = true -> m = lo) ->
  clamps (upper m hi) a lo hi.
Proof.
  intros Ha Hm Hle Hge Hin Hbelow.
  destruct (SFleb_not_nan _ _ Hle) as [Hlo Hhi].
  repeat split.
  - now apply upper_ge.
  - now apply upper_le.
  - intros [H1 H2]. specialize (Hin H1).
    apply SFeqb_trans with m; [|assumption].
    apply upper_inside; auto.
    apply SFleb_trans with a; auto using SFeqb_leb.
  - intros H. rewrite (Hbelow H). now apply upper_inside.
  - intros H.
    assert (Hla : SFleb lo a = true)
      by (apply SFltb_leb; now apply SFleb_ltb_trans with hi).
    rewrite upper_above; [now apply SFeqb_refl|].
    apply SFltb_leb_trans with a; [assumption|].
    apply SFeqb_leb, SFeqb_sym; auto.
Qed.

Lemma clamp_ordered a lo hi :
  is_nan a = false -> SFleb lo hi = true ->
  clamps (utils.clamp a lo hi) a lo hi.
Proof.
  intros Ha Hle; destruct (SFleb_not_nan _ _ Hle) as [Hlo Hhi].
  rewrite clamp_stages; apply stages_clamp; auto.
  - now apply std_max_not_nan.
  - now apply std_max_ge.
  - intros H; rewrite std_max_inside by assumption. now apply SFeqb_refl.
  - apply std_max_below.
Qed.

Lemma sse_clamp_ordered a lo hi :
  is_nan a = false -> SFleb lo hi = true ->
  clamps (utils.sse_clamp a lo hi) a lo hi.
Proof.
  intros Ha Hle; destruct (SFleb_not_nan _ _ Hle) as [Hlo Hhi].
  rewrite sse_clamp_stages; apply stages_clamp; auto.
  - now apply mm_max_not_nan.
  - now apply mm_max_ge.
  - now apply mm_max_inside.
  - apply mm_max_below.
Qed.

(** C4. For finite [a], [lo] and [hi] with [lo <= hi], the clamp of either
    backend lies in [[lo, hi]], compares equal to [a] when [a] lies in the
    range, and compares equal to [lo] when [a < lo] and to [hi] when
    [a > hi]. *)
Theorem clamp_in_range (a lo hi : spec_float) :
  is_finite a = true -> is_finite lo = true -> is_finite hi = true ->
  SFleb lo hi = true ->
  clamps (utils.clamp a lo hi) a lo hi /\
  clamps (utils.sse_clamp a lo hi) a lo hi.
Proof.
  intros Ha _ _ Hle; apply finite_not_nan in Ha.
  split; [now apply clamp_ordered | now apply sse_clamp_ordered].
Qed.

Lemma clamp_in_range_witness :
  clamps (utils.clamp (mf_int 5) (mf_int 1) (mf_int 2))
         (mf_int 5) (mf_int 1) (mf_int 2)
  /\ clamps (utils.sse_clamp (mf_int 5) (mf_int 1) (mf_int 2))
            (mf_int 5) (mf_int 1) (mf_int 2).
Proof.
  apply (clamp_in_range (mf_int 5) (mf_int 1) (mf_int 2)); reflexivity.
Defined.

(** The two backends agree up to the sign of a zero only: at [-0] with
    the bounds [+0] and [1] the scalar one keeps [-0], the other gives
    [+0]. *)
Lemma backends_differ_in_zero_sign :
  utils.clamp neg_zero pos_zero (mf_int 1) = neg_zero
  /\ utils.sse_clamp neg_zero pos_zero (mf_int 1) = pos_zero.
Proof. split; reflexivity. Qed.

(** With inverted bounds both stages end at the upper bound. *)
Lemma upper_inverted m lo hi :
  SFltb hi lo = true -> SFleb lo m = true -> upper m hi = hi.
Proof.
  intros Hinv Hge; apply upper_above.
  now apply SFltb_leb_trans with lo.
Qed.

(** With [lo > hi] either backend returns [hi] for every value that is
    not NaN. *)
Lemma clamp_inverted (v lo hi : spec_float) :
  is_nan v = false -> SFltb hi lo = true ->
  utils.clamp v lo hi = hi /\ utils.sse_clamp v lo hi = hi.
Proof.
  intros Hv Hinv; destruct (SFltb_not_nan _ _ Hinv) as [Hhi Hlo].
  rewrite clamp_stages, sse_clamp_stages; split;
    apply upper_inverted with lo; auto using std_max_ge, mm_max_ge.
Qed.

Lemma iclamp_cases (i lo hi : Z) :
  ((hi < i)%Z -> utils.iclamp i lo hi = (mf_int hi : spec_float))
  /\ ((i <= hi)%Z -> (i < lo)%Z ->
      utils.iclamp i lo hi = (mf_int lo : spec_float))
  /\ ((i <= hi)%Z -> (lo <= i)%Z ->
      utils.iclamp i lo hi = (mf_int i : spec_float)).
Proof.
  unfold utils.iclamp; repeat split; intros;
    destruct (Z.ltb_spec hi i); destruct (Z.ltb_spec i lo);
    try lia; reflexivity.
Qed.

(** C9, as the code has it.  With [lo > hi] the floating-point clamp of
    either backend returns [hi] for every value that is not NaN.  The
    integer [iclamp] with [lo > hi] returns [lo] for a value of at most
    [hi], and [hi] for a value above [hi]. *)
Theorem clamp_inverted_bounds (v lo hi : spec_float) (i ilo ihi : Z) :
  is_nan v = false -> SFltb hi lo = true -> (ihi < ilo)%Z ->
  utils.clamp v lo hi = hi
  /\ utils.sse_clamp v lo hi = hi
  /\ ((i <= ihi)%Z -> utils.iclamp i ilo ihi = (mf_int ilo : spec_float))
  /\ ((ihi < i)%Z -> utils.iclamp i ilo ihi = (mf_int ihi : spec_float)).
Proof.
  intros Hv Hinv Hi.
  destruct (clamp_inverted v lo hi Hv Hinv) as [H1 H2].
  destruct (iclamp_cases i ilo ihi) as (Habove & Hbelow & _).
  repeat split; auto.
  intros Hle; apply Hbelow; lia.
Qed.

Lemma clamp_inverted_bounds_witness :
  utils.clamp (mf_int 5) (mf_int 10) (mf_int 0) = (mf_int 0 : spec_float)
  /\ utils.sse_clamp (mf_int 5) (mf_int 10) (mf_int 0)
     = (mf_int 0 : spec_float)
  /\ ((-3 <= 0)%Z -> utils.iclamp (-3) 10 0 = (mf_int 10 : spec_float))
  /\ ((0 < -3)%Z -> utils.iclamp (-3) 10 0 = (mf_int 0 : spec_float)).
Proof.
  apply (clamp_inverted_bounds (mf_int 5) (mf_int 10) (mf_int 0) (-3) 10 0);
    [reflexivity | reflexivity | lia].
Defined.

(** C9 as stated fails for [iclamp]: the value 5 is below [lo = 10], the
    bounds are inverted, and the result is [hi = 0]. *)
Lemma iclamp_inverted_not_lo :
  ~ (forall i ilo ihi : Z, (ihi < ilo)%Z -> (i < ilo)%Z ->
       utils.iclamp i ilo ihi = (mf_int ilo : spec_float)).
Proof.
  intros H; specialize (H 5 10 0 ltac:(lia) ltac:(lia))%Z.
  vm_compute in H; discriminate.
Qed.

End ClampFacts.

(** ** closeToZero and isSilent *)

Module SilenceFacts.
Import IEEE FloatOrder Props.

Lemma EPSILON_value :
  utils.EPSILON = S754_finite false 8112963841460668 (-106).
Proof. vm_compute; reflexivity. Qed.

(** The two comparisons of [closeToZero] amount to one on the absolute
    value, for any positive finite threshold. *)
Lemma within_threshold_abs (m : positive) (e : Z) (v : spec_float) :
  SFleb v (S754_finite false m e) && SFleb (S754_finite true m e) v
  = SFleb (SFabs v) (S754_finite false m e).
Proof.
  destruct v as [[]|[]| |[] mv ev]; try reflexivity;
    unfold SFleb, SFabs, SFcompare; order_cases.
Qed.

Lemma closeToZero_abs (v : spec_float) :
  utils.closeToZero v = SFleb (SFabs v) utils.EPSILON.
Proof.
  unfold utils.closeToZero; rewrite EPSILON_value.
  apply within_threshold_abs.
Qed.

Section Loop.
Variable buffer : list spec_float.

Lemma isSilent_loop_defined (remaining i : nat) :
  (i + remaining <= List.length buffer)%nat ->
  exists r, utils.isSilent_loop buffer i remaining = Some r.
Proof.
  revert i; induction remaining as [|k IH]; intros i Hlen; simpl.
  - now exists true.
  - destruct (nth_error buffer i) as [v|] eqn:E.
    + destruct (utils.closeToZero v); [apply IH; lia | now exists false].
    + apply nth_error_None in E; lia.
Qed.

Lemma isSilent_loop_true (remaining i : nat) :
  (i + remaining <= List.length buffer)%nat ->
  utils.isSilent_loop buffer i remaining = Some true <->
  (forall j v, (i <= j < i + remaining)%nat ->
               nth_error buffer j = Some v -> utils.closeToZero v = true).
Proof.
  revert i; induction remaining as [|k IH]; intros i Hlen; simpl.
  - split; [intros _ j v Hj; lia | reflexivity].
  - destruct (nth_error buffer i) as [v|] eqn:E.
    + destruct (utils.closeToZero v) eqn:Ev.
      * rewrite IH by lia; split; intros H j w Hj Hw.
        -- destruct (Nat.eq_dec j i) as [->|Hne].
           ++ congruence.
           ++ apply (H j w); [lia | assumption].
        -- apply (H j w); [lia | assumption].
      * split; [discriminate|].
        intros H; rewrite (H i v) in Ev; [discriminate | lia | assumption].
    + apply nth_error_None in E; lia.
Qed.

End Loop.

(** *** The threshold against the real number [10^-16] *)

Lemma digits2_pos_bounds (m : positive) :
  (2 ^ (Zpos (digits2_pos m) - 1) <= Zpos m < 2 ^ Zpos (digits2_pos m))%Z.
Proof.
  induction m as [p IH|p IH|]; simpl digits2_pos.
  - rewrite Pos2Z.inj_succ.
    replace (Z.succ (Zpos (digits2_pos p)) - 1)%Z
      with (Z.succ (Zpos (digits2_pos p) - 1))%Z by lia.
    rewrite !Z.pow_succ_r by lia.
    set (a := (2 ^ (Zpos (digits2_pos p) - 1))%Z) in *.
    set (b := (2 ^ Zpos (digits2_pos p))%Z) in *.
    rewrite Pos2Z.inj_xI. lia.
  - rewrite Pos2Z.inj_succ.
    replace (Z.succ (Zpos (digits2_pos p)) - 1)%Z
      with (Z.succ (Zpos (digits2_pos p) - 1))%Z by lia.
    rewrite !Z.pow_succ_r by lia.
    set (a := (2 ^ (Zpos (digits2_pos p) - 1))%Z) in *.
    set (b := (2 ^ Zpos (digits2_pos p))%Z) in *.
    rewrite Pos2Z.inj_xO. lia.
  - simpl; lia.
Qed.

(** A well-formed finite binary64 value has a mantissa below [2^53], and
    of at least [2^52] unless it is subnormal. *)
Lemma valid_mantissa (m : positive) (e : Z) :
  SpecFloat.bounded prec emax m e = true ->
  (IZR (Zpos m) < 2 ^ 53)%R
  /\ ((-1074 < e)%Z -> (2 ^ 52 <= IZR (Zpos m))%R).
Proof.
  unfold SpecFloat.bounded, canonical_mantissa, fexp, emin, prec, emax.
  intros H; apply andb_prop in H; destruct H as [H _].
  apply Z.eqb_eq in H.
  pose proof (digits2_pos_bounds m) as [Hlo Hhi].
  set (d := Zpos (digits2_pos m)) in *.
  assert (Hd : (0 < d)%Z) by (unfold d; lia).
  change (3 - 1024 - 53)%Z with (-1074)%Z in H.
  rewrite (pow_IZR 2 53), (pow_IZR 2 52).
  change (Z.of_nat 53) with 53%Z; change (Z.of_nat 52) with 52%Z.
  split.
  - apply IZR_lt. apply Z.lt_le_trans with (2 ^ d)%Z; [assumption|].
    apply Z.pow_le_mono_r; lia.
  - intros He. apply IZR_le.
    assert (d = 53%Z) by lia.
    replace 52%Z with (d - 1)%Z by lia. assumption.
Qed.

Lemma powerRZ_2_mono (n m : Z) :
  (n <= m)%Z -> (powerRZ 2 n <= powerRZ 2 m)%R.
Proof.
  intros H. replace m with (n + Z.of_nat (Z.to_nat (m - n)))%Z by lia.
  rewrite powerRZ_add by lra. rewrite <- pow_powerRZ.
  pose proof (pow_R1_Rle 2 (Z.to_nat (m - n)) ltac:(lra)) as H1.
  pose proof (powerRZ_le 2 n ltac:(lra)) as H0.
  nra.
Qed.

Lemma abs_to_real (s : bool) (m : positive) (e : Z) :
  Rabs (to_real (S754_finite s m e)) = (IZR (Zpos m) * powerRZ 2 e)%R.
Proof.
  unfold to_real; rewrite Rabs_mult.
  rewrite (Rabs_pos_eq (powerRZ 2 e)) by (apply powerRZ_le; lra).
  f_equal. destruct s; simpl cond_Zopp.
  - change (Z.neg m) with (- Z.pos m)%Z.
    rewrite opp_IZR, Rabs_Ropp. apply Rabs_pos_eq, IZR_le; lia.
  - apply Rabs_pos_eq, IZR_le; lia.
Qed.

Lemma pow2_m105 : powerRZ 2 (-105) = (/ 2 ^ 105)%R.
Proof. reflexivity. Qed.

Lemma pow2_m106 : powerRZ 2 (-106) = (/ 2 ^ 106)%R.
Proof. reflexivity. Qed.

Lemma pow2_m107 : powerRZ 2 (-107) = (/ 2 ^ 107)%R.
Proof. reflexivity. Qed.

(** [EPSILON] is the binary64 number just below [10^-16]: at its
    exponent a mantissa is within [10^-16] exactly when it is at most
    that of [EPSILON]. *)
Lemma threshold_mantissa (m : positive) :
  (IZR (Zpos m) * powerRZ 2 (-106) <= 1 / 10 ^ 16)%R
  <-> Pos.compare m 8112963841460668 <> Gt.
Proof.
  rewrite pow2_m106.
  destruct (Pos.compare_spec m 8112963841460668) as [E|E|E].
  - subst m; split; [discriminate | intros _; lra].
  - apply Pos2Z.pos_lt_pos, IZR_lt in E.
    split; [discriminate | intros _; lra].
  - apply Pos2Z.pos_lt_pos, Z.le_succ_l, IZR_le in E.
    rewrite succ_IZR in E.
    split; [intros H; exfalso; lra | congruence].
Qed.

Lemma mantissa_below_threshold (m : positive) (e : Z) :
  (IZR (Zpos m) < 2 ^ 53)%R -> (e < -106)%Z ->
  (IZR (Zpos m) * powerRZ 2 e <= 1 / 10 ^ 16)%R.
Proof.
  intros Hhi E.
  assert (Hm : (0 < IZR (Zpos m))%R) by (apply IZR_lt; lia).
    assert (Hp : (powerRZ 2 e <= powerRZ 2 (-107))%R)
      by (apply powerRZ_2_mono; lia).
    assert (H0 : (0 < powerRZ 2 e)%R) by (apply powerRZ_lt; lra).
    apply Rle_trans with (2 ^ 53 * powerRZ 2 (-107))%R.
    + apply Rmult_le_compat; lra.
    + rewrite pow2_m107. lra.
Qed.

Lemma mantissa_above_threshold (m : positive) (e : Z) :
  (2 ^ 52 <= IZR (Zpos m))%R -> (-106 < e)%Z ->
  ~ (IZR (Zpos m) * powerRZ 2 e <= 1 / 10 ^ 16)%R.
Proof.
  intros Hlo E H.
    assert (Hp : (powerRZ 2 (-105) <= powerRZ 2 e)%R)
      by (apply powerRZ_2_mono; lia).
    assert (Hge : (2 ^ 52 * powerRZ 2 (-105)
                   <= IZR (Zpos m) * powerRZ 2 e)%R).
    { apply Rmult_le_compat; try lra.
      apply powerRZ_le; lra. }
    rewrite pow2_m105 in Hge. lra.
Qed.
Lemma SFleb_positive (m M : positive) (e E : Z) :
  SFleb (S754_finite false m e) (S754_finite false M E)
  = match Z.compare e E with
    | Lt => true
    | Gt => false
    | Eq => match Pos.compare m M with Gt => false | _ => true end
    end.
Proof.
  unfold SFleb, SFcompare.
  change (Pos.compare_cont Eq) with Pos.compare.
  destruct (Z.compare e E); try reflexivity;
    destruct (Pos.compare m M); reflexivity.
Qed.

Lemma finite_within_threshold (m : positive) (e : Z) :
  SpecFloat.bounded prec emax m e = true ->
  SFleb (S754_finite false m e)
        (S754_finite false 8112963841460668 (-106)) = true
  <-> (IZR (Zpos m) * powerRZ 2 e <= 1 / 10 ^ 16)%R.
Proof.
  intros Hv; destruct (valid_mantissa m e Hv) as [Hhi Hlo].
  rewrite SFleb_positive.
  destruct (Z.compare_spec e (-106)) as [E|E|E].
  - subst e. rewrite threshold_mantissa.
    destruct (Pos.compare m 8112963841460668); split;
      congruence || discriminate || reflexivity.
  - split; [intros _ | reflexivity]. now apply mantissa_below_threshold.
  - split; [discriminate | intros H; exfalso].
    apply (mantissa_above_threshold m e); [apply Hlo; lia | lia | assumption].
Qed.
Lemma within_threshold_real (v : spec_float) :
  valid_binary prec emax v = true ->
  SFleb (SFabs v) utils.EPSILON = true <-> magnitude_at_most v (1 / 10 ^ 16).
Proof.
  rewrite EPSILON_value.
  destruct v as [s|s| |s m e]; intros Hv.
  - split; [intros _; unfold magnitude_at_most; lra | reflexivity].
  - split; [discriminate | contradiction].
  - split; [discriminate | contradiction].
  - unfold magnitude_at_most; rewrite abs_to_real.
    now apply finite_within_threshold.
Qed.

(** C5. On a buffer of binary64 values that holds at least [n] samples,
    [isSilent] answers true exactly when each of the first [n] samples has
    an absolute value of at most [10^-16], as a real number (an infinity
    and NaN have not); a length of zero gives true whatever the buffer
    holds; one sample whose absolute value is not at most [10^-16] gives
    false. *)
Theorem isSilent_iff (b : list spec_float) (n : Z) :
  (0 <= n <= Z.of_nat (List.length b))%Z ->
  forallb (valid_binary prec emax) b = true ->
  (utils.isSilent b n = Some true <->
   forall i v, (0 <= i < n)%Z -> nth_error b (Z.to_nat i) = Some v ->
               magnitude_at_most v (1 / 10 ^ 16))
  /\ utils.isSilent b 0 = Some true
  /\ (forall i v, (0 <= i < n)%Z -> nth_error b (Z.to_nat i) = Some v ->
                  ~ magnitude_at_most v (1 / 10 ^ 16) ->
                  utils.isSilent b n = Some false).
Proof.
  intros Hn Hvalid.
  assert (Hlen : (0 + Z.to_nat n <= List.length b)%nat) by lia.
  assert (Hreal : forall j v, nth_error b j = Some v ->
            utils.closeToZero v = true <-> magnitude_at_most v (1 / 10 ^ 16)).
  { intros j v Hv; rewrite closeToZero_abs.
    apply within_threshold_real.
    rewrite forallb_forall in Hvalid.
    apply Hvalid, (nth_error_In b j Hv). }
  assert (Hiff : utils.isSilent b n = Some true <->
    forall i v, (0 <= i < n)%Z -> nth_error b (Z.to_nat i) = Some v ->
                magnitude_at_most v (1 / 10 ^ 16)).
  { unfold utils.isSilent; rewrite (isSilent_loop_true b _ _ Hlen).
    split; intros H.
    - intros i v Hi Hv; apply (Hreal _ _ Hv).
      apply (H (Z.to_nat i) v); [lia | assumption].
    - intros j v Hj Hv; apply (Hreal _ _ Hv).
      apply (H (Z.of_nat j) v); [lia | now rewrite Nat2Z.id]. }
  split; [exact Hiff | split; [reflexivity|]].
  intros i v Hi Hv Hbig.
  destruct (isSilent_loop_defined b _ _ Hlen) as [[] Hr]; [|exact Hr].
  exfalso. change (utils.isSilent b n = Some true) in Hr.
  rewrite Hiff in Hr. exact (Hbig (Hr i v Hi Hv)).
Qed.

(** A buffer with a sample of [10^-17], one at the threshold with the
    sign set, and one of 1. *)
Lemma isSilent_iff_witness :
  (utils.isSilent [dec 1 17; SFopp utils.EPSILON; one] 3 = Some true <->
   forall i v, (0 <= i < 3)%Z ->
               nth_error [dec 1 17; SFopp utils.EPSILON; one] (Z.to_nat i)
               = Some v ->
               magnitude_at_most v (1 / 10 ^ 16))
  /\ utils.isSilent [dec 1 17; SFopp utils.EPSILON; one] 0 = Some true
  /\ (forall i v, (0 <= i < 3)%Z ->
                  nth_error [dec 1 17; SFopp utils.EPSILON; one] (Z.to_nat i)
                  = Some v ->
                  ~ magnitude_at_most v (1 / 10 ^ 16) ->
                  utils.isSilent [dec 1 17; SFopp utils.EPSILON; one] 3
                  = Some false).
Proof.
  apply (isSilent_iff [dec 1 17; SFopp utils.EPSILON; one] 3).
  - simpl; lia.
  - vm_compute; reflexivity.
Defined.

(** The threshold at work: samples of [10^-17] and of the threshold
    itself, with either sign, are silent; the next binary64 number above
    the threshold is not. *)
Lemma isSilent_at_threshold :
  utils.isSilent [dec 1 17; SFopp utils.EPSILON; utils.EPSILON] 3 = Some true
  /\ utils.isSilent
       [dec 1 17; S754_finite false 8112963841460669 (-106)] 2 = Some false.
Proof. split; vm_compute; reflexivity. Qed.

End SilenceFacts.

(** ** Negation commutes with the rounded operations *)

Module SignFacts.
Import IEEE FloatOrder.

Section Format.
Variables prec emax : Z.

Lemma binary_round_aux_opp s m e l :
  binary_round_aux prec emax (negb s) m e l
  = SFopp (binary_round_aux prec emax s m e l).
Proof.
  unfold binary_round_aux.
  destruct (shr_fexp prec emax m e l) as [mrs e'].
  destruct (shr_fexp prec emax _ e' loc_Exact) as [mrs' e''].
  destruct (shr_m mrs'); try reflexivity.
  destruct (Z.leb e'' (emax - prec)); reflexivity.
Qed.

Lemma binary_round_opp s m e :
  binary_round prec emax (negb s) m e = SFopp (binary_round prec emax s m e).
Proof.
  unfold binary_round.
  destruct (shl_align m e _) as [mz ez].
  apply binary_round_aux_opp.
Qed.

Lemma SFopp_involutive x : SFopp (SFopp x) = x.
Proof. destruct x as [[]|[]| |[] m e]; reflexivity. Qed.

Lemma SFabs_opp x : SFabs (SFopp x) = SFabs x.
Proof. destruct x; reflexivity. Qed.

Lemma xorb_negb_l a b : xorb (negb a) b = negb (xorb a b).
Proof. destruct a, b; reflexivity. Qed.

Lemma xorb_negb_r a b : xorb a (negb b) = negb (xorb a b).
Proof. destruct a, b; reflexivity. Qed.

Lemma SFmul_opp_l x y :
  SFmul prec emax (SFopp x) y = SFopp (SFmul prec emax x y).
Proof.
  destruct x as [sx|sx| |sx mx ex], y as [sy|sy| |sy my ey]; simpl;
    rewrite ?xorb_negb_l; try reflexivity.
  apply binary_round_aux_opp.
Qed.

Lemma SFmul_opp_r x y :
  SFmul prec emax x (SFopp y) = SFopp (SFmul prec emax x y).
Proof.
  destruct x as [sx|sx| |sx mx ex], y as [sy|sy| |sy my ey]; simpl;
    rewrite ?xorb_negb_r; try reflexivity.
  apply binary_round_aux_opp.
Qed.

Lemma SFmul_opp_opp x y :
  SFmul prec emax (SFopp x) (SFopp y) = SFmul prec emax x y.
Proof. now rewrite SFmul_opp_l, SFmul_opp_r, SFopp_involutive. Qed.

Lemma SFdiv_opp_l x y :
  SFdiv prec emax (SFopp x) y = SFopp (SFdiv prec emax x y).
Proof.
  destruct x as [sx|sx| |sx mx ex], y as [sy|sy| |sy my ey]; simpl;
    rewrite ?xorb_negb_l; try reflexivity.
  destruct (SFdiv_core_binary prec emax (Z.pos mx) ex (Z.pos my) ey)
    as [[mz ez] lz].
  apply binary_round_aux_opp.
Qed.

Lemma binary_normalize_opp m e :
  SFabs (binary_normalize prec emax (- m) e false)
  = SFabs (binary_normalize prec emax m e false).
Proof.
  destruct m as [|p|p]; simpl; try reflexivity.
  - change true with (negb false).
    now rewrite binary_round_opp, SFabs_opp.
  - change true with (negb false).
    now rewrite binary_round_opp, SFabs_opp.
Qed.

Lemma cond_Zopp_negb s m : cond_Zopp (negb s) m = (- cond_Zopp s m)%Z.
Proof. destruct s; simpl; lia. Qed.

(** A sum changes sign with its operands, except that an exact zero sum
    is always positive: the absolute values agree. *)
Lemma SFabs_add_opp x y :
  SFabs (SFadd prec emax (SFopp x) (SFopp y))
  = SFabs (SFadd prec emax x y).
Proof.
  destruct x as [[]|[]| |sx mx ex], y as [[]|[]| |sy my ey];
    try reflexivity.
  unfold SFopp, SFadd.
  rewrite !cond_Zopp_negb, <- Z.opp_add_distr.
  apply binary_normalize_opp.
Qed.

End Format.

(** [quickertanh] on binary64 values. *)
Lemma quickertanh_opp (x : spec_float) :
  utils.quickertanh (SFopp x) = SFopp (utils.quickertanh x).
Proof.
  unfold utils.quickertanh.
  change (@mf_mul _ ops) with (SFmul prec emax).
  change (@mf_div _ ops) with (SFdiv prec emax).
  cbv zeta.
  now rewrite SFmul_opp_opp, SFdiv_opp_l.
Qed.

Lemma quicktanh_opp (x : spec_float) :
  utils.quicktanh (SFopp x) = SFopp (utils.quicktanh x).
Proof.
  unfold utils.quicktanh.
  change (@mf_mul _ ops) with (SFmul prec emax).
  change (@mf_div _ ops) with (SFdiv prec emax).
  change (@mf_add _ ops) with (SFadd prec emax).
  change (@mf_abs _ ops) with SFabs.
  cbv zeta.
  rewrite SFmul_opp_opp, SFabs_opp, SFmul_opp_l, SFdiv_opp_l.
  rewrite SFmul_opp_r, SFmul_opp_l, SFabs_add_opp.
  reflexivity.
Qed.

Lemma is_nan_opp (x : spec_float) : is_nan (SFopp x) = is_nan x.
Proof. now destruct x. Qed.

(** What the symmetry amounts to for a function that commutes with
    negation in the representation: where the result is a number the two
    sides are that same number, where it is NaN both sides are NaN, and a
    NaN compares equal to nothing. *)
Lemma odd_up_to_nan (f : spec_float -> spec_float) (x : spec_float) :
  f (SFopp x) = SFopp (f x) ->
  (is_nan (f x) = false ->
   f (SFopp x) = SFopp (f x)
   /\ SFeqb (f (SFopp x)) (SFopp (f x)) = true)
  /\ (is_nan (f x) = true ->
      is_nan (f (SFopp x)) = true
      /\ SFeqb (f (SFopp x)) (SFopp (f x)) = false).
Proof.
  intros Hodd; rewrite Hodd; split; intros Hn.
  - split; [reflexivity|]. apply SFeqb_refl. now rewrite is_nan_opp.
  - rewrite is_nan_opp; split; [assumption|].
    destruct (f x); try discriminate. reflexivity.
Qed.

(** C7, as the code has it.  On every binary64 value at which the result
    is not NaN, [quickertanh] and [quicktanh] commute with negation: the
    two sides are the same value bit for bit, and they compare equal.
    Where the result is NaN, the result at the negated input is NaN as
    well and the two sides do not compare equal.  Both functions map each
    zero to itself. *)
Theorem tanh_odd (x : spec_float) :
  ((is_nan (utils.quickertanh x) = false ->
    utils.quickertanh (SFopp x) = SFopp (utils.quickertanh x)
    /\ SFeqb (utils.quickertanh (SFopp x)) (SFopp (utils.quickertanh x))
       = true)
   /\ (is_nan (utils.quickertanh x) = true ->
       is_nan (utils.quickertanh (SFopp x)) = true
       /\ SFeqb (utils.quickertanh (SFopp x)) (SFopp (utils.quickertanh x))
          = false))
  /\ ((is_nan (utils.quicktanh x) = false ->
       utils.quicktanh (SFopp x) = SFopp (utils.quicktanh x)
       /\ SFeqb (utils.quicktanh (SFopp x)) (SFopp (utils.quicktanh x))
          = true)
      /\ (is_nan (utils.quicktanh x) = true ->
          is_nan (utils.quicktanh (SFopp x)) = true
          /\ SFeqb (utils.quicktanh (SFopp x)) (SFopp (utils.quicktanh x))
             = false))
  /\ utils.quickertanh pos_zero = pos_zero
  /\ utils.quicktanh pos_zero = pos_zero
  /\ utils.quickertanh neg_zero = neg_zero
  /\ utils.quicktanh neg_zero = neg_zero.
Proof.
  split; [exact (odd_up_to_nan utils.quickertanh x (quickertanh_opp x))|].
  split; [exact (odd_up_to_nan utils.quicktanh x (quicktanh_opp x))|].
  repeat split; vm_compute; reflexivity.
Qed.

(** At 1 both results are numbers, and the symmetry holds. *)
Lemma tanh_odd_witness :
  (utils.quickertanh (SFopp one) = SFopp (utils.quickertanh one)
   /\ SFeqb (utils.quickertanh (SFopp one)) (SFopp (utils.quickertanh one))
      = true)
  /\ (utils.quicktanh (SFopp one) = SFopp (utils.quicktanh one)
      /\ SFeqb (utils.quicktanh (SFopp one)) (SFopp (utils.quicktanh one))
         = true).
Proof.
  destruct (tanh_odd one) as ((H1 & _) & (H2 & _) & _).
  split; [apply H1 | apply H2]; vm_compute; reflexivity.
Defined.

(** C7 as stated fails at [10^155], a finite binary64 value: its square
    overflows, both functions give NaN there and at its negation, and
    [f(-x) == -f(x)] is false for both. *)
Lemma tanh_symmetry_lost_to_nan :
  is_finite (mf_int (10 ^ 155)) = true
  /\ utils.quickertanh (mf_int (10 ^ 155)) = S754_nan
  /\ utils.quicktanh (mf_int (10 ^ 155)) = S754_nan
  /\ SFeqb (utils.quickertanh (SFopp (mf_int (10 ^ 155))))
           (SFopp (utils.quickertanh (mf_int (10 ^ 155)))) = false
  /\ SFeqb (utils.quicktanh (SFopp (mf_int (10 ^ 155))))
           (SFopp (utils.quicktanh (mf_int (10 ^ 155)))) = false.
Proof. repeat split; vm_compute; reflexivity. Qed.

End SignFacts.

(** ** Facts on the real functions *)

Module RealFacts.
Open Scope R_scope.

Lemma abs_le_inv (x a : R) : Rabs x <= a -> - a <= x <= a.
Proof. unfold Rabs; destruct (Rcase_abs x); lra. Qed.

Lemma exp_le_mono (x y : R) : x <= y -> exp x <= exp y.
Proof.
  intros [H| ->]; [apply Rlt_le, exp_increasing, H | apply Rle_refl].
Qed.

Lemma ln_le_mono (x y : R) : 0 < x -> x <= y -> ln x <= ln y.
Proof.
  intros Hx [H| ->]; [apply Rlt_le, ln_increasing; assumption | apply Rle_refl].
Qed.

Lemma ln_upper (x : R) : 0 < x -> ln x <= x - 1.
Proof.
  intros Hx; pose proof (exp_ineq1_le (x - 1)) as H.
  rewrite <- (ln_exp (x - 1)); apply ln_le_mono; lra.
Qed.

Lemma ln_lower (x : R) : 0 < x -> 1 - / x <= ln x.
Proof.
  intros Hx; pose proof (ln_upper (/ x) (Rinv_0_lt_compat x Hx)) as H.
  rewrite ln_Rinv in H by assumption; lra.
Qed.

Lemma exp_12 : 4096 <= exp 12.
Proof.
  pose proof (exp_ineq1_le 1) as H1.
  assert (H2 : 4 <= exp 2).
  { replace 2 with (1 + 1) by lra; rewrite exp_plus; nra. }
  assert (H4 : 16 <= exp 4).
  { replace 4 with (2 + 2) by lra; rewrite exp_plus; nra. }
  assert (H8 : 256 <= exp 8).
  { replace 8 with (4 + 4) by lra; rewrite exp_plus; nra. }
  replace 12 with (8 + 4) by lra; rewrite exp_plus; nra.
Qed.

Lemma ln_le_12 (x : R) : 0 < x <= 4096 -> ln x <= 12.
Proof.
  intros [H0 H1]; rewrite <- (ln_exp 12); apply ln_le_mono; [assumption|].
  pose proof exp_12; lra.
Qed.

Lemma exp_upper (t : R) : t < 1 -> exp t <= / (1 - t).
Proof.
  intros Ht; pose proof (exp_ineq1_le (- t)) as H.
  rewrite exp_Ropp in H.
  pose proof (exp_pos t) as Hp.
  rewrite <- (Rinv_inv (exp t)).
  apply Rinv_le_contravar; lra.
Qed.

Lemma exp_near_one (t : R) : Rabs t <= 1 / 2 -> Rabs (exp t - 1) <= 2 * Rabs t.
Proof.
  intros Ht; pose proof (exp_ineq1_le t) as Hlo.
  assert (Hb : - (1 / 2) <= t <= 1 / 2).
  { now apply abs_le_inv. }
  assert (Hup : exp t <= / (1 - t)) by (apply exp_upper; lra).
  assert (Hinv : (1 - t) * / (1 - t) = 1) by (apply Rinv_r; lra).
  assert (Hip : 0 < / (1 - t)) by (apply Rinv_0_lt_compat; lra).
  destruct (Rle_or_lt 0 t) as [H0|H0].
  - rewrite (Rabs_pos_eq t) by assumption.
    apply Rabs_le; split; [lra|].
    assert (/ (1 - t) <= 1 + 2 * t); [|lra].
    apply Rmult_le_reg_l with (1 - t); [lra|]. rewrite Hinv. nra.
  - rewrite (Rabs_left t) by assumption.
    apply Rabs_le; split; [lra|].
    assert (/ (1 - t) <= 1); [|lra].
    apply Rmult_le_reg_l with (1 - t); [lra|]. rewrite Hinv. nra.
Qed.

Lemma exp_window (t : R) :
  Rabs t <= 1 / 100 -> 98 / 100 <= exp t <= 102 / 100.
Proof.
  intros Ht; assert (H : Rabs t <= 1 / 2) by lra.
  pose proof (abs_le_inv _ _ (exp_near_one t H)); lra.
Qed.

End RealFacts.

(** ** The sine approximations *)

Module SineBinary64.
Import IEEE.

(** The turning points, the centre and the ends of the domain are exact
    binary64 values, and so are the results there. *)
Lemma sin_points_binary64 :
  utils.quickerSin quarter = one
  /\ utils.quickerSin (SFopp quarter) = SFopp one
  /\ utils.quickerSin pos_zero = pos_zero
  /\ utils.quickerSin half = pos_zero
  /\ utils.quickerSin (SFopp half) = neg_zero
  /\ utils.quickSin quarter = one
  /\ utils.quickSin (SFopp quarter) = SFopp one.
Proof. repeat split; vm_compute; reflexivity. Qed.

(** Binary64 meets the two conditions of the rounded bound that are
    particular to a format: [1 + 2^-53], half way to the successor of 1,
    is rounded to 1, and the two weights of [quickSin] add up to 1. *)
Lemma binary64_tie_at_one :
  SFadd prec emax one (S754_finite false 4503599627370496 (-105)) = one.
Proof. vm_compute; reflexivity. Qed.

Lemma binary64_weights :
  SFadd prec emax (dec 776 3) (dec 224 3) = one.
Proof. vm_compute; reflexivity. Qed.

End SineBinary64.

Module SineFacts.
Import Ideal.
Open Scope R_scope.

Lemma quickerSin_ideal (p : R) :
  utils.quickerSin p = p * (8 - 16 * Rabs p).
Proof. unfold utils.quickerSin; simpl; field. Qed.

Lemma quickSin_ideal (p : R) :
  utils.quickSin p
  = utils.quickerSin p * (776 / 1000 + 224 / 1000 * Rabs (utils.quickerSin p)).
Proof. unfold utils.quickSin; simpl; field. Qed.

(** The parabola [t (8 - 16 t)] on [[0, 1/2]] stays within [[0, 1]]. *)
Lemma parabola_unit (t : R) : 0 <= t <= 1 / 2 -> 0 <= t * (8 - 16 * t) <= 1.
Proof.
  intros [H0 H1]; split.
  - apply Rmult_le_pos; lra.
  - pose proof (Rle_0_sqr (4 * t - 1)) as Hsq; unfold Rsqr in Hsq; lra.
Qed.

Lemma quickerSin_abs (p : R) :
  Rabs (utils.quickerSin p) = Rabs p * Rabs (8 - 16 * Rabs p).
Proof. rewrite quickerSin_ideal; apply Rabs_mult. Qed.

Lemma quickerSin_unit (p : R) :
  -1 / 2 <= p <= 1 / 2 -> Rabs (utils.quickerSin p) <= 1.
Proof.
  intros Hp.
  assert (Ht : 0 <= Rabs p <= 1 / 2).
  { split; [apply Rabs_pos|]. unfold Rabs; destruct (Rcase_abs p); lra. }
  rewrite quickerSin_abs.
  rewrite (Rabs_pos_eq (8 - 16 * Rabs p)) by lra.
  now apply parabola_unit.
Qed.

(** The refinement keeps a value of magnitude at most one within the
    unit. *)
Lemma refine_unit (a : R) :
  Rabs a <= 1 -> Rabs (a * (776 / 1000 + 224 / 1000 * Rabs a)) <= 1.
Proof.
  intros Ha; pose proof (Rabs_pos a) as H0.
  rewrite Rabs_mult.
  rewrite (Rabs_pos_eq (776 / 1000 + 224 / 1000 * Rabs a)) by lra.
  nra.
Qed.

Lemma quickSin_unit (p : R) :
  -1 / 2 <= p <= 1 / 2 -> Rabs (utils.quickSin p) <= 1.
Proof.
  intros Hp; rewrite quickSin_ideal.
  apply refine_unit; now apply quickerSin_unit.
Qed.

Lemma Rabs_quarter : Rabs (1 / 4) = 1 / 4.
Proof. apply Rabs_pos_eq; lra. Qed.

Lemma Rabs_neg_quarter : Rabs (- (1 / 4)) = 1 / 4.
Proof. rewrite Rabs_Ropp; apply Rabs_quarter. Qed.

Lemma Rabs_half : Rabs (1 / 2) = 1 / 2.
Proof. apply Rabs_pos_eq; lra. Qed.

Lemma quickerSin_points :
  utils.quickerSin (1 / 4) = 1 /\ utils.quickerSin (- (1 / 4)) = -1
  /\ utils.quickerSin 0 = 0
  /\ utils.quickerSin (1 / 2) = 0 /\ utils.quickerSin (- (1 / 2)) = 0.
Proof.
  rewrite !quickerSin_ideal, Rabs_quarter, Rabs_neg_quarter, Rabs_R0,
    Rabs_Ropp, Rabs_half.
  repeat split; lra.
Qed.

Lemma quickSin_fixes_unit (p : R) :
  (utils.quickerSin p = 1 -> utils.quickSin p = 1)
  /\ (utils.quickerSin p = -1 -> utils.quickSin p = -1).
Proof.
  rewrite quickSin_ideal; split; intros ->.
  - rewrite Rabs_R1; lra.
  - unfold Rabs; destruct (Rcase_abs (-1)); lra.
Qed.

End SineFacts.

(** ** The sine approximations under rounding *)

Module SineRounded.
Import Rounded RealFacts.
Open Scope R_scope.

Section Model.
Variable rnd : R -> R.
Variable u : R.
Hypothesis Hne : nearest_even rnd u.
Hypothesis Hw : weights_within_unit rnd.

Local Notation "'qSin'" := (@utils.quickerSin R (ops rnd)).
Local Notation "'kSin'" := (@utils.quickSin R (ops rnd)).

Lemma rnd_0 : rnd 0 = 0.
Proof. apply (ne_integers _ _ Hne). Qed.

Lemma rnd_1 : rnd 1 = 1.
Proof. apply (ne_integers _ _ Hne). Qed.

Lemma rnd_nonneg (x : R) : 0 <= x -> 0 <= rnd x.
Proof. intros H; rewrite <- rnd_0; now apply (ne_monotone _ _ Hne). Qed.

Lemma rnd_abs (x : R) : rnd (Rabs x) = Rabs (rnd x).
Proof.
  destruct (Rle_or_lt 0 x) as [H|H].
  - rewrite !Rabs_pos_eq; auto using rnd_nonneg.
  - rewrite (Rabs_left x) by assumption.
    assert (H' : 0 <= - x) by lra.
    pose proof (rnd_nonneg _ H') as Hn.
    rewrite (ne_odd _ _ Hne) in *.
    rewrite Rabs_left1; lra.
Qed.

(** A value in the unit interval stays there. *)
Lemma rnd_unit (x : R) : -1 <= x <= 1 -> -1 <= rnd x <= 1.
Proof.
  intros [H0 H1].
  pose proof (ne_monotone _ _ Hne x 1 H1) as Hup.
  pose proof (ne_monotone _ _ Hne (- (1)) x) as Hlo.
  rewrite (ne_odd _ _ Hne) in Hlo. rewrite rnd_1 in Hup, Hlo.
  split; [|exact Hup]. lra.
Qed.

(** The factor [8 - 16 |p|], rounded: for a normal value the relative
    error applies, below the normal range the least normal number bounds
    it. *)
Lemma rounded_factor (y q : R) :
  0 <= q <= 1 / 2 -> 0 <= y <= 8 -> q * y <= 1 -> 0 <= q * rnd y <= 1 + u.
Proof.
  intros [Hq Hq2] [Hy Hy8] Hqy.
  pose proof (ne_roundoff _ _ Hne) as Hu.
  pose proof (rnd_nonneg y Hy) as Ht.
  split; [now apply Rmult_le_pos|].
  destruct (Rle_or_lt (/ 2 ^ 1022) y) as [Hn|Hs].
  - assert (Hnorm : normal y).
    { unfold normal; rewrite Rabs_pos_eq by assumption.
      split; [assumption|]. apply Rle_trans with 8; [assumption | lra]. }
    pose proof (ne_accurate _ _ Hne y Hnorm) as Hacc.
    unfold rel_err in Hacc. rewrite (Rabs_pos_eq y) in Hacc by assumption.
    apply abs_le_inv in Hacc.
    assert (rnd y <= y * (1 + u)) by lra.
    nra.
  - assert (Hle : rnd y <= / 2 ^ 1022).
    { rewrite <- (ne_least_normal _ _ Hne).
      apply (ne_monotone _ _ Hne); lra. }
    assert (/ 2 ^ 1022 <= 1) by lra.
    nra.
Qed.

Lemma quickerSin_rounded (p : R) :
  rnd p = p -> Rabs p <= 1 / 2 ->
  qSin p = rnd (p * rnd (8 - 16 * Rabs p)).
Proof.
  intros Hp Hhalf; unfold utils.quickerSin; simpl.
  destruct (ne_integers _ _ Hne) as (_ & _ & H8 & H16).
  replace (80 / (10 * 1)) with 8 by lra.
  replace (160 / (10 * 1)) with 16 by lra.
  rewrite H8, H16.
  rewrite (ne_scale _ _ Hne); [reflexivity | | now rewrite Rabs_Rabsolu].
  now rewrite rnd_abs, Hp.
Qed.

Lemma quickerSin_magnitude (p : R) :
  rnd p = p -> Rabs p <= 1 / 2 ->
  Rabs (qSin p) = rnd (Rabs p * rnd (8 - 16 * Rabs p)).
Proof.
  intros Hp Hhalf; rewrite quickerSin_rounded by assumption.
  rewrite <- rnd_abs, Rabs_mult. f_equal. f_equal.
  apply Rabs_pos_eq, rnd_nonneg.
  pose proof (Rabs_pos p); lra.
Qed.

Lemma quickerSin_rounded_unit (p : R) :
  rnd p = p -> Rabs p <= 1 / 2 -> Rabs (qSin p) <= 1.
Proof.
  intros Hp Hhalf; rewrite quickerSin_magnitude by assumption.
  pose proof (Rabs_pos p) as H0.
  assert (Hy : 0 <= 8 - 16 * Rabs p) by lra.
  assert (Hpar : Rabs p * (8 - 16 * Rabs p) <= 1)
    by (apply SineFacts.parabola_unit; lra).
  destruct (rounded_factor (8 - 16 * Rabs p) (Rabs p)) as [_ Hup];
    [lra | lra | exact Hpar |].
  apply Rle_trans with (rnd (1 + u)); [|apply (ne_tie_at_one _ _ Hne)].
  now apply (ne_monotone _ _ Hne).
Qed.

(** The refinement step on a value of magnitude at most one. *)
Lemma refine_rounded_unit (a : R) :
  Rabs a <= 1 ->
  Rabs (rnd (a * rnd (rnd (776 / 10 ^ 3)
                      + rnd (rnd (224 / 10 ^ 3) * Rabs a)))) <= 1.
Proof.
  intros Ha; pose proof (Rabs_pos a) as H0.
  set (c1 := rnd (776 / 10 ^ 3)). set (c2 := rnd (224 / 10 ^ 3)).
  assert (Hc1 : 0 <= c1) by (apply rnd_nonneg; lra).
  assert (Hc2 : 0 <= c2) by (apply rnd_nonneg; lra).
  assert (Hm : 0 <= rnd (c2 * Rabs a) <= c2).
  { assert (Hid : rnd c2 = c2) by (unfold c2; apply (ne_idempotent _ _ Hne)).
    pose proof (ne_monotone _ _ Hne (c2 * Rabs a) c2) as Hmono.
    rewrite Hid in Hmono.
    split; [apply rnd_nonneg; now apply Rmult_le_pos | apply Hmono; nra]. }
  assert (Hs : 0 <= rnd (c1 + rnd (c2 * Rabs a)) <= 1).
  { split; [apply rnd_nonneg; lra|].
    apply Rle_trans with (rnd (c1 + c2)); [|exact Hw].
    apply (ne_monotone _ _ Hne); lra. }
  set (s := rnd (c1 + rnd (c2 * Rabs a))) in *.
  apply Rabs_le, rnd_unit.
  apply abs_le_inv in Ha. split; nra.
Qed.

Lemma quickSin_rounded_unit (p : R) :
  rnd p = p -> Rabs p <= 1 / 2 -> Rabs (kSin p) <= 1.
Proof.
  intros Hp Hhalf.
  apply refine_rounded_unit, quickerSin_rounded_unit; assumption.
Qed.

End Model.

Lemma exact_nearest_even : nearest_even (fun x : R => x) 0.
Proof.
  split; try lra; intros; try lra.
  unfold rel_err; rewrite Rminus_diag, Rabs_R0; lra.
Qed.

Lemma exact_weights : weights_within_unit (fun x : R => x).
Proof. unfold weights_within_unit; lra. Qed.

Lemma quarter_in_domain : -1 / 2 <= 1 / 4 <= 1 / 2.
Proof. lra. Qed.

(** C10. For a phase [p] in [[-1/2, 1/2]], [quickerSin] and [quickSin]
    have magnitude at most one:
    - in exact real arithmetic, where [quickerSin] is 1 at 1/4, -1 at
      -1/4 and 0 at 0, 1/2 and -1/2, and [quickSin] is 1 where
      [quickerSin] is 1 and -1 where it is -1;
    - in binary64 arithmetic at those points, bit for bit (a zero of
      either sign at the ends);
    - in every arithmetic that rounds to nearest with ties to even, for a
      representable [p], provided the two weights of [quickSin] add up to
      at most one in the format, as they do in binary64. *)
Theorem sin_unit_amplitude (rnd : R -> R) (u p : R) :
  -1 / 2 <= p <= 1 / 2 ->
  nearest_even rnd u -> weights_within_unit rnd -> rnd p = p ->
  (Rabs (@utils.quickerSin R Ideal.ops p) <= 1
   /\ Rabs (@utils.quickSin R Ideal.ops p) <= 1)
  /\ (@utils.quickerSin R Ideal.ops (1 / 4) = 1
      /\ @utils.quickerSin R Ideal.ops (- (1 / 4)) = -1
      /\ @utils.quickerSin R Ideal.ops 0 = 0
      /\ @utils.quickerSin R Ideal.ops (1 / 2) = 0
      /\ @utils.quickerSin R Ideal.ops (- (1 / 2)) = 0)
  /\ ((@utils.quickerSin R Ideal.ops p = 1 -> @utils.quickSin R Ideal.ops p = 1)
      /\ (@utils.quickerSin R Ideal.ops p = -1
          -> @utils.quickSin R Ideal.ops p = -1))
  /\ (@utils.quickerSin _ IEEE.ops IEEE.quarter = IEEE.one
      /\ @utils.quickerSin _ IEEE.ops (SFopp IEEE.quarter) = SFopp IEEE.one
      /\ @utils.quickerSin _ IEEE.ops IEEE.pos_zero = IEEE.pos_zero
      /\ @utils.quickerSin _ IEEE.ops IEEE.half = IEEE.pos_zero
      /\ @utils.quickerSin _ IEEE.ops (SFopp IEEE.half) = IEEE.neg_zero
      /\ @utils.quickSin _ IEEE.ops IEEE.quarter = IEEE.one
      /\ @utils.quickSin _ IEEE.ops (SFopp IEEE.quarter) = SFopp IEEE.one)
  /\ (Rabs (@utils.quickerSin R (ops rnd) p) <= 1
      /\ Rabs (@utils.quickSin R (ops rnd) p) <= 1).
Proof.
  intros Hp Hne Hw Hrep.
  assert (Hhalf : Rabs p <= 1 / 2) by (apply Rabs_le; lra).
  split; [split; [now apply SineFacts.quickerSin_unit
                 | now apply SineFacts.quickSin_unit]|].
  split; [exact SineFacts.quickerSin_points|].
  split; [exact (SineFacts.quickSin_fixes_unit p)|].
  split; [exact SineBinary64.sin_points_binary64|].
  split; [now apply (quickerSin_rounded_unit rnd u)
         | now apply (quickSin_rounded_unit rnd u)].
Qed.

Lemma sin_unit_amplitude_witness :
  (Rabs (@utils.quickerSin R Ideal.ops (1 / 4)) <= 1
   /\ Rabs (@utils.quickSin R Ideal.ops (1 / 4)) <= 1)
  /\ (@utils.quickerSin R Ideal.ops (1 / 4) = 1
      /\ @utils.quickerSin R Ideal.ops (- (1 / 4)) = -1
      /\ @utils.quickerSin R Ideal.ops 0 = 0
      /\ @utils.quickerSin R Ideal.ops (1 / 2) = 0
      /\ @utils.quickerSin R Ideal.ops (- (1 / 2)) = 0)
  /\ ((@utils.quickerSin R Ideal.ops (1 / 4) = 1
       -> @utils.quickSin R Ideal.ops (1 / 4) = 1)
      /\ (@utils.quickerSin R Ideal.ops (1 / 4) = -1
          -> @utils.quickSin R Ideal.ops (1 / 4) = -1))
  /\ (@utils.quickerSin _ IEEE.ops IEEE.quarter = IEEE.one
      /\ @utils.quickerSin _ IEEE.ops (SFopp IEEE.quarter) = SFopp IEEE.one
      /\ @utils.quickerSin _ IEEE.ops IEEE.pos_zero = IEEE.pos_zero
      /\ @utils.quickerSin _ IEEE.ops IEEE.half = IEEE.pos_zero
      /\ @utils.quickerSin _ IEEE.ops (SFopp IEEE.half) = IEEE.neg_zero
      /\ @utils.quickSin _ IEEE.ops IEEE.quarter = IEEE.one
      /\ @utils.quickSin _ IEEE.ops (SFopp IEEE.quarter) = SFopp IEEE.one)
  /\ (Rabs (@utils.quickerSin R (ops (fun x : R => x)) (1 / 4)) <= 1
      /\ Rabs (@utils.quickSin R (ops (fun x : R => x)) (1 / 4)) <= 1).
Proof.
  exact (sin_unit_amplitude (fun x : R => x) 0 (1 / 4) quarter_in_domain
           exact_nearest_even exact_weights eq_refl).
Defined.

End SineRounded.

(** ** The soft clippers over the reals *)

Module TanhFacts.
Import Ideal Props.
Open Scope R_scope.

Lemma quickertanh_ideal (x : R) :
  utils.quickertanh x = x * (15 + x * x) / (15 + 6 * (x * x)).
Proof.
  pose proof (Rle_0_sqr x) as Hs; unfold Rsqr in Hs.
  unfold utils.quickertanh; simpl.
  field; repeat split; lra.
Qed.

Lemma quickertanh_ge (x : R) : 0 <= x -> x / 6 <= utils.quickertanh x.
Proof.
  intros Hx; rewrite quickertanh_ideal.
  pose proof (Rle_0_sqr x) as Hs; unfold Rsqr in Hs.
  assert (Hden : 0 < 15 + 6 * (x * x)) by lra.
  apply Rmult_le_reg_r with (15 + 6 * (x * x)); [assumption|].
  unfold Rdiv at 2; rewrite Rmult_assoc, Rinv_l by lra.
  nra.
Qed.

Lemma quickertanh_ideal_odd (x : R) :
  utils.quickertanh (- x) = - utils.quickertanh x.
Proof.
  rewrite !quickertanh_ideal.
  pose proof (Rle_0_sqr x) as Hs; unfold Rsqr in Hs.
  field; lra.
Qed.

Lemma quickertanh_grows (x : R) : Rabs x / 6 <= Rabs (utils.quickertanh x).
Proof.
  destruct (Rle_or_lt 0 x) as [Hx|Hx].
  - rewrite (Rabs_pos_eq x) by assumption.
    pose proof (quickertanh_ge x Hx) as H.
    rewrite Rabs_pos_eq; lra.
  - rewrite (Rabs_left x) by assumption.
    assert (H0 : 0 <= - x) by lra.
    pose proof (quickertanh_ge (- x) H0) as H.
    rewrite quickertanh_ideal_odd in H.
    rewrite Rabs_left; lra.
Qed.

Lemma quickertanh_unbounded : ~ bounded utils.quickertanh.
Proof.
  intros [B HB].
  pose proof (HB (6 * (Rabs B + 1))) as H.
  pose proof (quickertanh_grows (6 * (Rabs B + 1))) as H'.
  pose proof (Rabs_pos B) as H0.
  pose proof (Rle_abs B) as H1.
  rewrite (Rabs_pos_eq (6 * (Rabs B + 1))) in H' by lra.
  lra.
Qed.

(** The float constants of [quicktanh], rounded to binary32. *)
Lemma coefficients_binary32 :
  IEEE.literal 24 128 245550750702956 14 = S754_finite false 10299145 (-22)
  /\ IEEE.literal 24 128 893229853513558 15
     = S754_finite false 14985910 (-24)
  /\ IEEE.literal 24 128 821226666969744 15
     = S754_finite false 13777897 (-24)
  /\ IEEE.literal 24 128 244506634652299 14
     = S754_finite false 10255352 (-22)
  /\ IEEE.literal 24 128 814642734961073 15
     = S754_finite false 13667437 (-24).
Proof. repeat split; vm_compute; reflexivity. Qed.

Lemma coefficients_ideal :
  decf 245550750702956 14 = qa /\ decf 893229853513558 15 = qb
  /\ decf 821226666969744 15 = qc /\ decf 244506634652299 14 = qd
  /\ decf 814642734961073 15 = qk.
Proof.
  destruct coefficients_binary32 as (Ha & Hb & Hc & Hd & Hk).
  unfold decf, ops; rewrite Ha, Hb, Hc, Hd, Hk.
  unfold qa, qb, qc, qd, qk, IEEE.to_real, cond_Zopp, powerRZ.
  repeat split; simpl; lra.
Qed.

Lemma quicktanh_ideal (x : R) :
  utils.quicktanh x = odd_quotient qa qb qc qd qk x.
Proof.
  destruct coefficients_ideal as (Ha & Hb & Hc & Hd & Hk).
  unfold utils.quicktanh; cbv zeta.
  rewrite Ha, Hb, Hc, Hd, Hk. reflexivity.
Qed.

Section Shape.
Variables a b c d k : R.
Hypothesis Ha : 0 < a.
Hypothesis Hb : 0 < b.
Hypothesis Hc : 0 < c.
Hypothesis Hd : 0 < d.
Hypothesis Hk : 0 < k.

Lemma odd_quotient_den_pos (x : R) :
  0 < d + (d + x * x) * Rabs (x + k * x * Rabs x).
Proof.
  pose proof (Rle_0_sqr x) as Hs; unfold Rsqr in Hs.
  pose proof (Rabs_pos (x + k * x * Rabs x)) as Hn.
  apply Rplus_lt_le_0_compat; [assumption|].
  apply Rmult_le_pos; lra.
Qed.

Lemma odd_quotient_opp (x : R) :
  odd_quotient a b c d k (- x) = - odd_quotient a b c d k x.
Proof.
  unfold odd_quotient.
  rewrite Rabs_Ropp.
  replace (- x + k * - x * Rabs x) with (- (x + k * x * Rabs x)) by ring.
  rewrite Rabs_Ropp.
  pose proof (odd_quotient_den_pos x) as Hden.
  field; lra.
Qed.

(** On the non-negative half-line the absolute values disappear. *)
Lemma odd_quotient_nonneg (x : R) :
  0 <= x ->
  odd_quotient a b c d k x
  = (x * (a + a * x + x * x * (b + c * x)))
    / (d + (d + x * x) * (x + k * x * x)).
Proof.
  intros Hx; unfold odd_quotient.
  rewrite (Rabs_pos_eq x) by assumption.
  rewrite (Rabs_pos_eq (x + k * x * x)); [reflexivity|].
  pose proof (Rle_0_sqr x) as Hs; unfold Rsqr in Hs.
  assert (0 <= k * x * x) by (rewrite Rmult_assoc; apply Rmult_le_pos; lra).
  lra.
Qed.

End Shape.

Lemma coefficients_pos : 0 < qa /\ 0 < qb /\ 0 < qc /\ 0 < qd /\ 0 < qk.
Proof. unfold qa, qb, qc, qd, qk; repeat split; lra. Qed.

(** A quotient with a positive denominator lies strictly within [eps] of
    zero when its numerator lies within [eps] times the denominator. *)
Lemma quotient_small (A B eps : R) :
  0 < B -> - (eps * B) < A -> A < eps * B -> Rabs (A / B) < eps.
Proof.
  intros HB Hlo Hhi; apply Rabs_def1; unfold Rdiv.
  - apply Rmult_lt_reg_r with B; [assumption|].
    rewrite Rmult_assoc, Rinv_l by lra; lra.
  - apply Rmult_lt_reg_r with B; [assumption|].
    rewrite Rmult_assoc, Rinv_l by lra; lra.
Qed.

Section HalfLine.
Variable x : R.
Hypothesis Hx : 0 <= x.

Local Notation "'N'" := (halfline_num x).
Local Notation "'D'" := (halfline_den x).

Lemma powers_nonneg : 0 <= x * x /\ 0 <= x * x * x /\ 0 <= x * x * x * x.
Proof.
  assert (H2 : 0 <= x * x) by (apply Rmult_le_pos; assumption).
  assert (H3 : 0 <= x * x * x) by (apply Rmult_le_pos; assumption).
  assert (H4 : 0 <= x * x * x * x) by (apply Rmult_le_pos; assumption).
  auto.
Qed.

Lemma halfline_den_pos : 0 < D.
Proof.
  destruct powers_nonneg as (H2 & H3 & H4).
  unfold halfline_den, qd, qk; lra.
Qed.

Lemma halfline_num_nonneg : 0 <= N.
Proof.
  destruct powers_nonneg as (H2 & H3 & H4).
  unfold halfline_num, qa, qb, qc; lra.
Qed.

(** The numerator stays below [qc / qk] times the denominator: the
    difference is a cubic that is positive on the half-line. *)
Lemma halfline_below : qk * N < qc * D.
Proof.
  destruct powers_nonneg as (H2 & H3 & H4).
  assert (Hh : 0 <= (x - 11 / 4) * (x - 11 / 4) * (x + 11 / 8)).
  { apply Rmult_le_pos; [apply Rle_0_sqr | lra]. }
  unfold halfline_num, halfline_den, qa, qb, qc, qd, qk; lra.
Qed.

(** Beyond 1 that cubic is at most [3 x^3] and the denominator at least
    [(3/5) x^4]. *)
Lemma halfline_gap : 1 <= x ->
  qc * D - qk * N <= 3 * (x * x * x) /\ 3 / 5 * (x * (x * x * x)) <= qk * D.
Proof.
  intros H1.
  assert (H2 : x <= x * x) by nra.
  assert (H3 : x * x <= x * x * x) by nra.
  assert (H4 : 0 <= x * x * x * x) by (apply powers_nonneg).
  unfold halfline_num, halfline_den, qa, qb, qc, qd, qk; split; lra.
Qed.

End HalfLine.

Lemma quicktanh_halfline (x : R) :
  0 <= x -> 0 <= utils.quicktanh x < quicktanh_limit.
Proof.
  intros Hx; destruct coefficients_pos as (Ha & Hb & Hc & Hd & Hk).
  rewrite quicktanh_ideal, odd_quotient_nonneg by assumption.
  pose proof (halfline_den_pos x Hx) as HD.
  pose proof (halfline_num_nonneg x Hx) as HN.
  pose proof (halfline_below x Hx) as Hlt.
  unfold halfline_num, halfline_den in HD, HN, Hlt.
  split.
  - apply Rmult_le_pos; [assumption | apply Rlt_le, Rinv_0_lt_compat, HD].
  - unfold quicktanh_limit, Rdiv.
    apply Rmult_lt_reg_r with (qd + (qd + x * x) * (x + qk * x * x));
      [assumption|].
    rewrite Rmult_assoc, Rinv_l by lra.
    apply Rmult_lt_reg_l with qk; [assumption|].
    replace (qk * (qc * / qk * (qd + (qd + x * x) * (x + qk * x * x))))
      with (qc * (qd + (qd + x * x) * (x + qk * x * x))) by (field; lra).
    rewrite Rmult_1_r. exact Hlt.
Qed.

Lemma quicktanh_ideal_odd (x : R) :
  utils.quicktanh (- x) = - utils.quicktanh x.
Proof.
  destruct coefficients_pos as (Ha & Hb & Hc & Hd & Hk).
  rewrite !quicktanh_ideal; now apply odd_quotient_opp.
Qed.

Lemma quicktanh_below_limit (x : R) :
  Rabs (utils.quicktanh x) < quicktanh_limit.
Proof.
  destruct (Rle_or_lt 0 x) as [Hx|Hx].
  - destruct (quicktanh_halfline x Hx) as [H0 H1].
    rewrite Rabs_pos_eq; assumption.
  - assert (H : 0 <= - x) by lra.
    destruct (quicktanh_halfline (- x) H) as [H0 H1].
    rewrite quicktanh_ideal_odd in H0, H1.
    rewrite <- Rabs_Ropp, Rabs_pos_eq; assumption.
Qed.

(** Within [eps] of the limit once [5 < eps * x]. *)
Lemma quicktanh_near_limit (x eps : R) :
  0 < eps -> 1 <= x -> 5 < eps * x ->
  Rabs (utils.quicktanh x - quicktanh_limit) < eps.
Proof.
  intros He H1 Hbig; destruct coefficients_pos as (Ha & Hb & Hc & Hd & Hk).
  assert (Hx : 0 <= x) by lra.
  rewrite quicktanh_ideal, odd_quotient_nonneg by assumption.
  pose proof (halfline_den_pos x Hx) as HD.
  pose proof (halfline_below x Hx) as Hlt.
  destruct (halfline_gap x Hx H1) as [Hgap Hden].
  unfold halfline_num, halfline_den in HD, Hlt, Hgap, Hden.
  set (N := x * (qa + qa * x + x * x * (qb + qc * x))) in *.
  set (D := qd + (qd + x * x) * (x + qk * x * x)) in *.
  unfold quicktanh_limit.
  replace (N / D - qc / qk) with ((qk * N - qc * D) / (qk * D))
    by (field; lra).
  assert (HkD : 0 < qk * D) by (apply Rmult_lt_0_compat; assumption).
  assert (Hy : 0 < x * x * x) by (repeat apply Rmult_lt_0_compat; lra).
  assert (Hscale : 3 * (x * x * x) < eps * (qk * D)).
  { apply Rlt_le_trans with (eps * (3 / 5 * (x * (x * x * x)))).
    - replace (eps * (3 / 5 * (x * (x * x * x))))
        with (3 / 5 * ((eps * x) * (x * x * x))) by ring.
      assert (5 * (x * x * x) < eps * x * (x * x * x))
        by (apply Rmult_lt_compat_r; assumption).
      lra.
    - apply Rmult_le_compat_l; lra. }
  apply quotient_small; lra.
Qed.

Lemma quicktanh_tends_pinf : tends_at_pinf utils.quicktanh quicktanh_limit.
Proof.
  intros eps He; exists (Rmax 1 (5 / eps)); intros x Hx.
  pose proof (Rmax_l 1 (5 / eps)) as H1.
  pose proof (Rmax_r 1 (5 / eps)) as H2.
  apply quicktanh_near_limit; [assumption | lra |].
  assert (H : 5 / eps < x) by lra.
  apply Rmult_lt_compat_l with (r := eps) in H; [|assumption].
  replace (eps * (5 / eps)) with 5 in H by (field; lra).
  exact H.
Qed.

Lemma quicktanh_tends_ninf :
  tends_at_ninf utils.quicktanh (- quicktanh_limit).
Proof.
  intros eps He; destruct (quicktanh_tends_pinf eps He) as [M HM].
  exists (- M); intros x Hx.
  assert (H : M < - x) by lra.
  specialize (HM (- x) H); rewrite quicktanh_ideal_odd in HM.
  replace (utils.quicktanh x - - quicktanh_limit)
    with (- (- utils.quicktanh x - quicktanh_limit)) by ring.
  now rewrite Rabs_Ropp.
Qed.

Lemma quicktanh_limit_above_one : 1 < quicktanh_limit.
Proof.
  unfold quicktanh_limit, qc, qk; lra.
Qed.

Lemma quicktanh_limit_value : quicktanh_limit = 13777897 / 13667437.
Proof. unfold quicktanh_limit, qc, qk; field. Qed.

(** In binary64 the code gives, at [10^20], the double nearest to that
    ratio. *)
Lemma quicktanh_binary64_plateau :
  @utils.quicktanh _ IEEE.ops (@mf_int _ IEEE.ops (10 ^ 20))
  = SFdiv IEEE.prec IEEE.emax (@mf_int _ IEEE.ops 13777897)
                              (@mf_int _ IEEE.ops 13667437).
Proof. vm_compute; reflexivity. Qed.



End TanhFacts.

(** ** The resonance conversions over the reals *)

Module ResonanceFacts.
Import Ideal.
Open Scope R_scope.

Lemma magnitudeToQ_ideal (m : R) :
  utils.magnitudeToQ m = Rpower 2 (5 * m - 1).
Proof.
  unfold utils.magnitudeToQ, utils.INTERPOLATE, utils.MIN_Q_POW,
    utils.MAX_Q_POW; simpl.
  f_equal; lra.
Qed.

Lemma qToMagnitude_ideal (q : R) :
  utils.qToMagnitude q = (Rpower (1 / 2) q + 1) / 5.
Proof.
  unfold utils.qToMagnitude, utils.MIN_Q_POW, utils.MAX_Q_POW; simpl.
  replace (5 / (10 * 1)) with (1 / 2) by lra.
  field.
Qed.

Lemma Rpower_pos (b y : R) : 0 < Rpower b y.
Proof. unfold Rpower; apply exp_pos. Qed.

(** What would invert [magnitudeToQ]: the logarithm to base 2 where
    [qToMagnitude] has the power of 1/2. *)
Lemma log2_inverts_magnitudeToQ (m : R) :
  (ln (utils.magnitudeToQ m) / ln 2 - utils.MIN_Q_POW)
  / (utils.MAX_Q_POW - utils.MIN_Q_POW) = m.
Proof.
  rewrite magnitudeToQ_ideal; unfold Rpower; rewrite ln_exp.
  unfold utils.MIN_Q_POW, utils.MAX_Q_POW; simpl.
  pose proof ln_lt_2 as H2.
  field; lra.
Qed.

(** C1 at its failing inputs.  Whatever the magnitude, the round trip
    lands above 1/5; from the magnitude 1/5, whose quality factor is 1, it
    gives 3/10. *)
Theorem resonance_round_trip_off :
  (forall m : R, 1 / 5 < utils.qToMagnitude (utils.magnitudeToQ m))
  /\ utils.magnitudeToQ (1 / 5) = 1
  /\ utils.qToMagnitude (utils.magnitudeToQ (1 / 5)) = 3 / 10
  /\ utils.magnitudeToQ 0 = 1 / 2.
Proof.
  split.
  { intros m; rewrite qToMagnitude_ideal.
    pose proof (Rpower_pos (1 / 2) (utils.magnitudeToQ m)); lra. }
  assert (H1 : utils.magnitudeToQ (1 / 5) = 1).
  { rewrite magnitudeToQ_ideal.
    replace (5 * (1 / 5) - 1) with 0 by lra.
    apply Rpower_O; lra. }
  split; [exact H1|]. split.
  - rewrite H1, qToMagnitude_ideal, Rpower_1 by lra; lra.
  - rewrite magnitudeToQ_ideal.
    replace (5 * 0 - 1) with (- (1)) by lra.
    rewrite Rpower_Ropp, Rpower_1 by lra; lra.
Qed.

End ResonanceFacts.

(** ** The pointer handler of the text selector *)

Module SelectorFacts.
Import TextSelector.

Lemma to_int_ratio (a b c : Z) :
  (0 < c)%Z ->
  to_int (inject_Z a * (inject_Z b + 1) / inject_Z c)%Q
  = Z.quot (a * (b + 1)) c.
Proof.
  intros Hc; destruct c as [|p|p]; try lia.
  unfold to_int; simpl.
  rewrite !Z.mul_1_r. reflexivity.
Qed.

Lemma spec_index_ratio (w : TextSelector) (x : Z) :
  (0 < getWidth w)%Z ->
  spec_index w x = Z.quot (x * num_types w) (getWidth w).
Proof.
  intros Hw; unfold spec_index, num_types.
  destruct (getWidth w) as [|p|p]; try lia.
  unfold to_int; simpl. rewrite !Z.mul_1_r.
  reflexivity.
Qed.

(** The index of the specification is the cell that [paint] draws under
    the pointer. *)
Lemma spec_index_in_cell (w : TextSelector) (x : Z) :
  (0 < getWidth w)%Z -> (0 < num_types w)%Z -> (0 <= x)%Z ->
  in_cell w (spec_index w x) x.
Proof.
  intros Hw Hn Hx; rewrite spec_index_ratio by assumption.
  unfold in_cell, cell_width.
  set (W := getWidth w) in *. set (n := num_types w) in *.
  rewrite Z.quot_div_nonneg by nia.
  pose proof (Z.div_mod (x * n) W ltac:(lia)) as Hdm.
  pose proof (Z.mod_pos_bound (x * n) W Hw) as Hmod.
  set (i := (x * n / W)%Z) in *.
  destruct W as [|pw|pw]; try lia. destruct n as [|pn|pn]; try lia.
  unfold Qle, Qlt; simpl.
  rewrite !Pos.mul_1_r, !Z.mul_1_r.
  clearbody i. nia.
Qed.

(** What the handler asks for is the position times [maximum + 1] over
    the width, whatever the minimum. *)
Lemma mouseEvent_request (w : TextSelector) (x : Z) :
  (0 < getWidth w)%Z ->
  mouseEvent w x
  = Some (setValue (Z.quot (x * (getMaximum w + 1)) (getWidth w))).
Proof.
  intros Hw; unfold mouseEvent.
  destruct (Z.eqb_spec (getWidth w) 0) as [E|E]; [lia|].
  now rewrite to_int_ratio.
Qed.

(** C3, as the code has it: on a selector whose range starts at 0 the
    handler asks for the index of the specification,
    [pointerX * (maximum - minimum + 1) / widgetWidth] without its
    fraction. *)
Theorem mouseEvent_index (w : TextSelector) (x : Z) :
  (0 < getWidth w)%Z -> getMinimum w = 0%Z ->
  mouseEvent w x = Some (setValue (spec_index w x)).
Proof.
  intros Hw Hmin.
  rewrite mouseEvent_request, spec_index_ratio by assumption.
  unfold num_types; rewrite Hmin, Z.sub_0_r. reflexivity.
Qed.

Lemma mouseEvent_index_witness :
  mouseEvent {| getMinimum := 0; getMaximum := 3; getWidth := 100 |} 90
  = Some (setValue
      (spec_index {| getMinimum := 0; getMaximum := 3; getWidth := 100 |} 90)).
Proof.
  apply (mouseEvent_index
           {| getMinimum := 0; getMaximum := 3; getWidth := 100 |} 90).
  - simpl; lia.
  - reflexivity.
Defined.

(** C3 as stated fails on a range that starts at 1.  The selector has the
    range 1..4 and is 100 pixels wide, the pointer is at pixel 90.
    [paint] draws four cells of 25 pixels and the pointer is in the last
    one, cell 3, which is the index of the specification; the handler
    asks for 4. *)
Lemma mouseEvent_ignores_minimum :
  num_types {| getMinimum := 1; getMaximum := 4; getWidth := 100 |} = 4%Z
  /\ in_cell {| getMinimum := 1; getMaximum := 4; getWidth := 100 |} 3 90
  /\ spec_index {| getMinimum := 1; getMaximum := 4; getWidth := 100 |} 90
     = 3%Z
  /\ mouseEvent {| getMinimum := 1; getMaximum := 4; getWidth := 100 |} 90
     = Some (setValue 4)
  /\ mouseEvent {| getMinimum := 1; getMaximum := 4; getWidth := 100 |} 90
     <> Some (setValue
         (spec_index {| getMinimum := 1; getMaximum := 4; getWidth := 100 |}
                     90)).
Proof.
  split; [reflexivity|]. split.
  - unfold in_cell, Qle, Qlt; simpl; lia.
  - split; [reflexivity|]. split; [reflexivity|].
    vm_compute; discriminate.
Qed.

End SelectorFacts.

(** ** gainToDb at zero *)

Module GainFacts.
Import IEEE.

Lemma skeleton_conforming : conforming skeleton_libm.
Proof. intros x r H; simpl; now rewrite H. Qed.

(** Ill-defined arguments of [gainToDb], the instance that C8 names:
    with a library [log10] as the C standard fixes it, [gainToDb] of
    either zero is negative infinity and [gainToDb] of a negative number
    is NaN.  [isSilent] has a result on every buffer that holds the
    samples it is asked about. *)
Theorem ill_defined_results
  (libm : Libm spec_float) (s : bool) (m : positive) (e : Z)
  (b : list spec_float) (n : Z) :
  conforming libm -> (0 <= n <= Z.of_nat (List.length b))%Z ->
  utils.gainToDb (S754_zero s) = neg_infinity
  /\ utils.gainToDb (S754_finite true m e) = S754_nan
  /\ exists r : bool, utils.isSilent b n = Some r.
Proof.
  intros Hlibm Hn; unfold utils.gainToDb.
  rewrite (Hlibm (S754_zero s) neg_infinity eq_refl).
  rewrite (Hlibm (S754_finite true m e) S754_nan eq_refl).
  split; [reflexivity|]. split; [reflexivity|].
  apply SilenceFacts.isSilent_loop_defined; lia.
Qed.

Lemma ill_defined_results_witness :
  @utils.gainToDb spec_float ops skeleton_libm pos_zero = neg_infinity
  /\ @utils.gainToDb spec_float ops skeleton_libm (SFopp one) = S754_nan
  /\ exists r : bool, utils.isSilent [one; pos_zero] 2 = Some r.
Proof.
  apply (ill_defined_results skeleton_libm false 4503599627370496 (-52)
           [one; pos_zero] 2).
  - intros x r H; simpl; rewrite H; reflexivity.
  - simpl; lia.
Defined.

End GainFacts.

(** ** The round trip between frequency and MIDI note *)

Module RoundTripFacts.
Import Rounded RealFacts.
Open Scope R_scope.

(** A relative error of at most [u <= 1/2] is a logarithmic one of at
    most [2 u]. *)
Lemma rel_err_log_close (u x' x : R) :
  0 <= u <= 1 / 2 -> 0 < x -> rel_err u x' x -> log_close (2 * u) x' x.
Proof.
  intros [Hu0 Hu1] Hx H; unfold rel_err in H.
  rewrite (Rabs_pos_eq x) in H by lra.
  apply abs_le_inv in H.
  set (q := x' / x).
  assert (Hq : 1 - u <= q <= 1 + u).
  { unfold q, Rdiv; split.
    - apply Rmult_le_reg_r with x; [assumption|].
      rewrite Rmult_assoc, Rinv_l by lra; lra.
    - apply Rmult_le_reg_r with x; [assumption|].
      rewrite Rmult_assoc, Rinv_l by lra; lra. }
  assert (Hq0 : 0 < q) by lra.
  exists (ln q); split.
  - pose proof (ln_upper q Hq0) as Hup.
    pose proof (ln_lower q Hq0) as Hlo.
    assert (Hiq : / q <= 1 + 2 * u).
    { apply Rmult_le_reg_l with q; [assumption|].
      rewrite Rinv_r by lra. nra. }
    apply Rabs_le; lra.
  - rewrite exp_ln by assumption. unfold q; field; lra.
Qed.

(** The values the round trip goes through are all far inside the
    normal range. *)
Lemma normal_window (x : R) : 1 / 4 <= x <= 2 ^ 30 -> normal x.
Proof.
  intros [H0 H1]; unfold normal; rewrite Rabs_pos_eq by lra.
  split; [apply Rle_trans with (1 / 4); [lra | assumption]|].
  apply Rle_trans with (2 ^ 30); [assumption|].
  apply Rle_pow; [lra | lia].
Qed.

Lemma scale_window (x E lo hi : R) :
  0 <= lo -> lo <= x <= hi -> 98 / 100 <= E <= 102 / 100 ->
  98 / 100 * lo <= x * E <= 102 / 100 * hi.
Proof. intros; split; nra. Qed.

Lemma div_window (x y xl xh yl yh : R) :
  0 <= xl -> xl <= x <= xh -> 0 < yl -> yl <= y <= yh ->
  xl / yh <= x / y <= xh / yl.
Proof.
  intros Hxl [Hx0 Hx1] Hyl [Hy0 Hy1]; unfold Rdiv.
  assert (Hiy : / yh <= / y <= / yl).
  { split; apply Rinv_le_contravar; lra. }
  assert (Hp : 0 < / yh) by (apply Rinv_0_lt_compat; lra).
  split; nra.
Qed.

Section Model.
Variable rnd : R -> R.
Variables lg10 lg : R -> R.
Variable pw : R -> R -> R.
Variable u : R.
Hypothesis Hmodel : standard_model rnd lg pw u.
Hypothesis Hu : u <= / 10 ^ 12.

Local Notation "'w'" := (2 * u).

Lemma u_range : 0 <= u <= 1 / 2.
Proof. pose proof (u_nonneg _ _ _ _ Hmodel); lra. Qed.

Lemma rnd_close (x : R) :
  1 / 4 <= x <= 2 ^ 30 -> log_close w (rnd x) x.
Proof.
  intros Hx; apply rel_err_log_close; [apply u_range | lra |].
  apply (rnd_accurate _ _ _ _ Hmodel), normal_window, Hx.
Qed.

Lemma lg_close (x : R) :
  1 / 4 <= x <= 2 ^ 30 -> 1 / 4 <= ln x <= 2 ^ 30 ->
  log_close w (lg x) (ln x).
Proof.
  intros Hx Hl; apply rel_err_log_close; [apply u_range | lra |].
  apply (log_accurate _ _ _ _ Hmodel); apply normal_window; assumption.
Qed.

Lemma pw_close (b y : R) :
  0 < b -> 1 / 4 <= Rpower b y <= 2 ^ 30 ->
  log_close w (pw b y) (Rpower b y).
Proof.
  intros Hb Hp; apply rel_err_log_close; [apply u_range | lra |].
  apply (pow_accurate _ _ _ _ Hmodel); [assumption|].
  apply normal_window, Hp.
Qed.

Lemma small_window (t : R) : Rabs t <= w -> 98 / 100 <= exp t <= 102 / 100.
Proof. intros Ht; apply exp_window; lra. Qed.

Lemma round_trip_unfold (f : R) :
  round_trip rnd lg10 lg pw f
  = let M0 := rnd (81757989156 / 10 ^ 10) in
    let b := rnd (20 / 10 ^ 1) in
    let t1 := rnd (f / M0) in
    let t2 := lg t1 in
    let t3 := rnd (12 * t2) in
    let t4 := lg b in
    let note := rnd (t3 / t4) in
    let c := rnd (note * 100) in
    let e := rnd (c / 1200) in
    let r := pw b e in
    rnd (M0 * r).
Proof. reflexivity. Qed.

Lemma round_trip_log_close (f : R) :
  20 <= f <= 20000 -> log_close (147 * w) (round_trip rnd lg10 lg pw f) f.
Proof.
  intros Hf; rewrite round_trip_unfold; cbv zeta.
  (* the constant MIDI_0_FREQUENCY *)
  destruct (rnd_close (81757989156 / 10 ^ 10)) as (h0 & Hh0 & E0); [lra|].
  pose proof (small_window h0 Hh0) as W0.
  set (M0 := rnd (81757989156 / 10 ^ 10)) in *.
  assert (B0 : 8 <= M0 <= 84 / 10) by (rewrite E0; nra).
  (* the base 2.0 *)
  destruct (rnd_close (20 / 10 ^ 1)) as (hb & Hhb & Eb); [lra|].
  pose proof (small_window hb Hhb) as Wb.
  set (b := rnd (20 / 10 ^ 1)) in *.
  assert (Bb : 196 / 100 <= b <= 204 / 100) by (rewrite Eb; nra).
  (* frequency / MIDI_0_FREQUENCY *)
  assert (B1' : 238 / 100 <= f / M0 <= 2500).
  { pose proof (div_window f M0 20 20000 8 (84 / 10)) as H; lra. }
  destruct (rnd_close (f / M0)) as (h1 & Hh1 & E1); [lra|].
  pose proof (small_window h1 Hh1) as W1.
  set (t1 := rnd (f / M0)) in *.
  assert (B1 : 233 / 100 <= t1 <= 2550) by (rewrite E1; nra).
  (* log *)
  assert (L1 : 1 / 2 <= ln t1 <= 12).
  { split.
    - pose proof (ln_lower t1) as H.
      assert (/ t1 <= / (233 / 100)) by (apply Rinv_le_contravar; lra).
      lra.
    - apply ln_le_12; lra. }
  destruct (lg_close t1) as (h2 & Hh2 & E2); [lra | lra |].
  pose proof (small_window h2 Hh2) as W2.
  set (t2 := lg t1) in *.
  assert (B2 : 49 / 100 <= t2 <= 1224 / 100) by (rewrite E2; nra).
  (* NOTES_PER_OCTAVE * log *)
  destruct (rnd_close (12 * t2)) as (h3 & Hh3 & E3); [lra|].
  pose proof (small_window h3 Hh3) as W3.
  set (t3 := rnd (12 * t2)) in *.
  assert (B3 : 57 / 10 <= t3 <= 150) by (rewrite E3; nra).
  (* log(2.0) *)
  assert (Lb : 48 / 100 <= ln b <= 104 / 100).
  { split.
    - pose proof (ln_lower b) as H.
      assert (/ b <= / (196 / 100)) by (apply Rinv_le_contravar; lra).
      lra.
    - pose proof (ln_upper b); lra. }
  destruct (lg_close b) as (h4 & Hh4 & E4); [lra | lra |].
  pose proof (small_window h4 Hh4) as W4.
  set (t4 := lg b) in *.
  assert (B4 : 47 / 100 <= t4 <= 107 / 100) by (rewrite E4; nra).
  (* the note *)
  assert (B5' : 5 <= t3 / t4 <= 320).
  { pose proof (div_window t3 t4 (57 / 10) 150 (47 / 100) (107 / 100)) as H.
    lra. }
  destruct (rnd_close (t3 / t4)) as (h5 & Hh5 & E5); [lra|].
  pose proof (small_window h5 Hh5) as W5.
  set (note := rnd (t3 / t4)) in *.
  assert (B5 : 49 / 10 <= note <= 330) by (rewrite E5; nra).
  (* note * CENTS_PER_NOTE *)
  destruct (rnd_close (note * 100)) as (h6 & Hh6 & E6); [lra|].
  pose proof (small_window h6 Hh6) as W6.
  set (c := rnd (note * 100)) in *.
  assert (B6 : 480 <= c <= 33700) by (rewrite E6; nra).
  (* cents / CENTS_PER_OCTAVE *)
  destruct (rnd_close (c / 1200)) as (h7 & Hh7 & E7); [lra|].
  pose proof (small_window h7 Hh7) as W7.
  set (e := rnd (c / 1200)) in *.
  (* the exponent is log2 of t1 up to the accumulated factor *)
  set (s := h2 + h3 - h4 + h5 + h6 + h7).
  assert (Hs : Rabs s <= 6 * w).
  { apply abs_le_inv in Hh2, Hh3, Hh4, Hh5, Hh6, Hh7.
    apply Rabs_le; unfold s; lra. }
  pose proof (exp_pos h4) as P4.
  assert (Ee : e * ln b = ln t1 * exp s).
  { unfold s, Rminus.
    rewrite !exp_plus, exp_Ropp, E7, E6, E5, E3, E4, E2.
    field; lra. }
  assert (Hk : Rabs (ln t1 * (exp s - 1)) <= 144 * w).
  { rewrite Rabs_mult, (Rabs_pos_eq (ln t1)) by lra.
    assert (Hs' : Rabs s <= 1 / 2) by lra.
    pose proof (exp_near_one s Hs') as H.
    pose proof (Rabs_pos (exp s - 1)).
    nra. }
  set (k := ln t1 * (exp s - 1)) in *.
  assert (Ep : Rpower b e = t1 * exp k).
  { unfold Rpower; rewrite Ee.
    replace (ln t1 * exp s) with (ln t1 + k) by (unfold k; ring).
    rewrite exp_plus, exp_ln by lra. reflexivity. }
  assert (Wk : 98 / 100 <= exp k <= 102 / 100) by (apply exp_window; lra).
  destruct (pw_close b e) as (h8 & Hh8 & E8); [lra | rewrite Ep; nra |].
  pose proof (small_window h8 Hh8) as W8.
  set (r := pw b e) in *.
  (* MIDI_0_FREQUENCY * ratio *)
  assert (Em : M0 * r = f * exp (h1 + k + h8)).
  { rewrite E8, Ep, E1, !exp_plus. field; lra. }
  assert (Hm : Rabs (h1 + k + h8) <= 146 * w).
  { apply abs_le_inv in Hh1, Hk, Hh8. apply Rabs_le; lra. }
  assert (Wm : 98 / 100 <= exp (h1 + k + h8) <= 102 / 100)
    by (apply exp_window; lra).
  destruct (rnd_close (M0 * r)) as (h9 & Hh9 & E9); [rewrite Em; nra|].
  exists (h1 + k + h8 + h9); split.
  - apply abs_le_inv in Hm, Hh9. apply Rabs_le; lra.
  - rewrite E9, Em, (exp_plus (h1 + k + h8) h9). ring.
Qed.

End Model.

Lemma sample_standard_model :
  standard_model sample_rnd sample_log sample_pow (/ 10 ^ 13).
Proof.
  assert (He : 0 <= / 10 ^ 13) by lra.
  split; [exact He | | |]; intros; unfold rel_err, sample_rnd, sample_log,
    sample_pow.
  - replace (x * (1 + / 10 ^ 13) - x) with (/ 10 ^ 13 * x) by ring.
    rewrite Rabs_mult, (Rabs_pos_eq (/ 10 ^ 13)) by exact He. lra.
  - replace (ln x * (1 + / 10 ^ 13) - ln x) with (/ 10 ^ 13 * ln x) by ring.
    rewrite Rabs_mult, (Rabs_pos_eq (/ 10 ^ 13)) by exact He. lra.
  - replace (Rpower b y * (1 - / 10 ^ 13) - Rpower b y)
      with (- (/ 10 ^ 13 * Rpower b y)) by ring.
    rewrite Rabs_Ropp, Rabs_mult, (Rabs_pos_eq (/ 10 ^ 13)) by exact He. lra.
Qed.

(** C6. In every standard model with unit roundoff at most [10^-12]
    (binary64 arithmetic has [2^-53], about [1.1 * 10^-16]), the round trip
    of a frequency between 20 and 20000 through [frequencyToMidiNote] and
    [midiNoteToFrequency] has relative error at most [10^-9]. *)
Theorem midi_round_trip (rnd lg10 lg : R -> R) (pw : R -> R -> R) (u f : R) :
  standard_model rnd lg pw u -> u <= / 10 ^ 12 -> 20 <= f <= 20000 ->
  Rabs (round_trip rnd lg10 lg pw f - f) <= / 10 ^ 9 * f.
Proof.
  intros Hmodel Hu Hf.
  destruct (round_trip_log_close rnd lg10 lg pw u Hmodel Hu f Hf)
    as (t & Ht & E).
  pose proof (u_nonneg _ _ _ _ Hmodel) as Hu0.
  assert (Ht' : Rabs t <= 1 / 2) by lra.
  pose proof (exp_near_one t Ht') as Hexp.
  rewrite E.
  replace (f * exp t - f) with (f * (exp t - 1)) by ring.
  rewrite Rabs_mult, (Rabs_pos_eq f) by lra.
  pose proof (Rabs_pos (exp t - 1)) as Hp.
  assert (Rabs (exp t - 1) <= / 10 ^ 9) by lra.
  nra.
Qed.

Lemma sample_roundoff_small : / 10 ^ 13 <= / 10 ^ 12.
Proof. lra. Qed.

Lemma concert_pitch_in_range : 20 <= 440 <= 20000.
Proof. lra. Qed.

Lemma midi_round_trip_witness :
  Rabs (round_trip sample_rnd sample_log sample_log sample_pow 440 - 440)
  <= / 10 ^ 9 * 440.
Proof.
  exact (midi_round_trip sample_rnd sample_log sample_log sample_pow
           (/ 10 ^ 13) 440 sample_standard_model sample_roundoff_small
           concert_pitch_in_range).
Defined.

End RoundTripFacts.

(** ** min, max and clamp beyond the ordered case *)

Module CompareFacts.
Import IEEE FloatOrder Props ClampFacts.

(** Unfolds the comparisons of both backends down to [SFltb]. *)
Ltac to_ltb :=
  unfold utils.min, utils.max, utils.sse_min, utils.sse_max,
    utils.clamp, utils.sse_clamp, utils.std_min, utils.std_max,
    utils.mm_min_sd, utils.mm_max_sd, upper; simpl mf_ltb.

Lemma SFltb_nan_l x : SFltb S754_nan x = false.
Proof. reflexivity. Qed.

Lemma SFltb_nan_r x : SFltb x S754_nan = false.
Proof. now destruct x as [[]|[]| |[] m e]. Qed.

Lemma SFltb_irrefl x : SFltb x x = false.
Proof.
  destruct (SFltb x x) eqn:E; [|reflexivity].
  now rewrite (SFltb_asym _ _ E) in E.
Qed.

Lemma SFltb_trans x y z :
  SFltb x y = true -> SFltb y z = true -> SFltb x z = true.
Proof. rewrite !SFltb_true; apply SFcompare_lt_trans. Qed.

(** Case analysis on every comparison in the goal; the cases that the
    order rules out are closed. *)
Ltac ltb_absurd :=
  match goal with
  | H : SFltb ?a ?a = true |- _ =>
      rewrite SFltb_irrefl in H; discriminate
  | H1 : SFltb ?a ?b = true, H2 : SFltb ?b ?a = true |- _ =>
      rewrite (SFltb_asym _ _ H1) in H2; discriminate
  | H1 : SFltb ?a ?b = true, H2 : SFltb ?b ?c = true,
    H3 : SFltb ?a ?c = false |- _ =>
      rewrite (SFltb_trans _ _ _ H1 H2) in H3; discriminate
  end.

Ltac ltb_cases :=
  repeat match goal with
  | H : SFltb ?a ?b = _ |- context [SFltb ?a ?b] => rewrite H
  | |- context [SFltb ?a ?b] =>
      is_var a; is_var b; destruct (SFltb a b) eqn:?
  end;
  try reflexivity; try congruence; try ltb_absurd.

Lemma SFleb_antisym x y :
  SFleb x y = true -> SFleb y x = true -> SFeqb x y = true.
Proof.
  intros H1 H2; apply SFleb_not_ltb_eqb; [assumption|].
  now apply SFleb_ltb_false.
Qed.

(** Closes a goal [x <= y], or a case that the order rules out, from the
    comparisons in the context: what is known is put as [<=] and closed
    under transitivity. *)
Ltac order_saturate :=
  repeat match goal with
  | H : SFltb ?a ?b = false, Ha : is_nan ?a = false, Hb : is_nan ?b = false
    |- _ =>
      lazymatch goal with
      | _ : SFleb b a = true |- _ => fail
      | _ => pose proof (SFltb_false_leb a b Ha Hb H)
      end
  | H : SFltb ?a ?b = true |- _ =>
      lazymatch goal with
      | _ : SFleb a b = true |- _ => fail
      | _ => pose proof (SFltb_leb a b H)
      end
  | H1 : SFleb ?a ?b = true, H2 : SFleb ?b ?c = true |- _ =>
      lazymatch goal with
      | _ : SFleb a c = true |- _ => fail
      | _ => pose proof (SFleb_trans a b c H1 H2)
      end
  end.

Ltac order_close :=
  order_saturate;
  try assumption;
  try (apply SFleb_refl; assumption);
  try match goal with
  | H1 : SFltb ?a ?b = true, H2 : SFleb ?b ?a = true |- _ =>
      rewrite (SFleb_ltb_false _ _ H2) in H1; discriminate
  end.

(** X1. For two values that are not NaN, [min] is at most each of them
    and [max] at least each of them, in both backends; the result is one
    of the two arguments, and the two backends give results that compare
    equal. *)
Theorem min_max_ordered (a b : spec_float) :
  is_nan a = false -> is_nan b = false ->
  (SFleb (utils.min a b) a = true /\ SFleb (utils.min a b) b = true)
  /\ (SFleb a (utils.max a b) = true /\ SFleb b (utils.max a b) = true)
  /\ (utils.min a b = a \/ utils.min a b = b)
  /\ (utils.max a b = a \/ utils.max a b = b)
  /\ SFeqb (utils.sse_min a b) (utils.min a b) = true
  /\ SFeqb (utils.sse_max a b) (utils.max a b) = true.
Proof.
  intros Ha Hb; to_ltb.
  destruct (SFltb b a) eqn:Hba, (SFltb a b) eqn:Hab;
    try (rewrite (SFltb_asym _ _ Hba) in Hab; discriminate);
    repeat split;
    auto using SFleb_refl, SFeqb_refl, SFltb_leb, SFltb_false_leb,
      SFeqb_sym, SFleb_not_ltb_eqb.
Qed.

Lemma min_max_ordered_witness :
  (SFleb (utils.min one half) one = true
   /\ SFleb (utils.min one half) half = true)
  /\ (SFleb one (utils.max one half) = true
      /\ SFleb half (utils.max one half) = true)
  /\ (utils.min one half = one \/ utils.min one half = half)
  /\ (utils.max one half = one \/ utils.max one half = half)
  /\ SFeqb (utils.sse_min one half) (utils.min one half) = true
  /\ SFeqb (utils.sse_max one half) (utils.max one half) = true.
Proof. apply (min_max_ordered one half); reflexivity. Defined.

(** X2. With a NaN among the arguments the comparison fails and the two
    backends part: [std::min] and [std::max] return their first argument,
    the SSE instructions their second.  So one backend passes a NaN on
    where the other drops it. *)
Theorem min_max_nan (x : spec_float) :
  utils.min S754_nan x = S754_nan /\ utils.max S754_nan x = S754_nan
  /\ utils.min x S754_nan = x /\ utils.max x S754_nan = x
  /\ utils.sse_min S754_nan x = x /\ utils.sse_max S754_nan x = x
  /\ utils.sse_min x S754_nan = S754_nan
  /\ utils.sse_max x S754_nan = S754_nan.
Proof.
  to_ltb; rewrite !SFltb_nan_r; simpl. repeat split.
Qed.

(** X3. With bounds that are not NaN, [clamp] never returns NaN, whatever
    the value and whatever the order of the bounds.  A NaN value is
    replaced by the upper bound in the scalar backend and by the smaller
    of the two bounds in the other. *)
Theorem clamp_never_nan (v lo hi : spec_float) :
  is_nan lo = false -> is_nan hi = false ->
  is_nan (utils.clamp v lo hi) = false
  /\ is_nan (utils.sse_clamp v lo hi) = false
  /\ utils.clamp S754_nan lo hi = hi
  /\ utils.sse_clamp S754_nan lo hi = utils.sse_min lo hi.
Proof.
  intros Hlo Hhi; split; [|split; [|split]].
  - to_ltb. destruct (SFltb v lo) eqn:E1.
    + now destruct (SFltb lo hi).
    + destruct (SFltb v hi) eqn:E2; [|assumption].
      now destruct (SFltb_not_nan _ _ E2).
  - to_ltb. destruct (SFltb lo v) eqn:E1.
    + destruct (SFltb v hi) eqn:E2; [|assumption].
      now destruct (SFltb_not_nan _ _ E2).
    + now destruct (SFltb lo hi).
  - to_ltb. reflexivity.
  - to_ltb. now rewrite SFltb_nan_r.
Qed.

Lemma clamp_never_nan_witness :
  is_nan (utils.clamp S754_nan half one) = false
  /\ is_nan (utils.sse_clamp S754_nan half one) = false
  /\ utils.clamp S754_nan half one = one
  /\ utils.sse_clamp S754_nan half one = utils.sse_min half one.
Proof. apply (clamp_never_nan S754_nan half one); reflexivity. Defined.

(** X4. Clamping twice changes nothing: the clamp of a clamped value is
    that value again, bit for bit, in both backends, whatever the value
    and the bounds are, NaN and inverted bounds included. *)
Theorem clamp_idempotent (v lo hi : spec_float) :
  utils.clamp (utils.clamp v lo hi) lo hi = utils.clamp v lo hi
  /\ utils.sse_clamp (utils.sse_clamp v lo hi) lo hi
     = utils.sse_clamp v lo hi.
Proof. split; to_ltb; ltb_cases. Qed.

(** X5. [clamp] keeps the order: for bounds that are not NaN, in either
    order, a value that is at most another has a clamp that is at most
    the other's, in both backends. *)
Theorem clamp_monotone (v v' lo hi : spec_float) :
  is_nan lo = false -> is_nan hi = false -> SFleb v v' = true ->
  SFleb (utils.clamp v lo hi) (utils.clamp v' lo hi) = true
  /\ SFleb (utils.sse_clamp v lo hi) (utils.sse_clamp v' lo hi) = true.
Proof.
  intros Hlo Hhi Hle; destruct (SFleb_not_nan _ _ Hle) as [Hv Hv'].
  split; to_ltb; ltb_cases; order_close.
Qed.

Lemma clamp_monotone_witness :
  SFleb (utils.clamp half one (mf_int 2)) (utils.clamp (mf_int 5) one (mf_int 2))
  = true
  /\ SFleb (utils.sse_clamp half one (mf_int 2))
           (utils.sse_clamp (mf_int 5) one (mf_int 2)) = true.
Proof.
  apply (clamp_monotone half (mf_int 5) one (mf_int 2)); reflexivity.
Defined.

(** X6. On values and bounds that are not NaN the two backends of
    [clamp] give results that compare equal, whatever the order of the
    bounds: they can differ in the sign of a zero only. *)
Theorem clamp_backends_agree (v lo hi : spec_float) :
  is_nan v = false -> is_nan lo = false -> is_nan hi = false ->
  SFeqb (utils.clamp v lo hi) (utils.sse_clamp v lo hi) = true.
Proof.
  intros Hv Hlo Hhi; to_ltb; ltb_cases;
    apply SFleb_antisym; order_close.
Qed.

Lemma clamp_backends_agree_witness :
  SFeqb (utils.clamp neg_zero pos_zero one)
        (utils.sse_clamp neg_zero pos_zero one) = true.
Proof. apply (clamp_backends_agree neg_zero pos_zero one); reflexivity. Defined.

End CompareFacts.

(** ** zeroBuffer and copyBuffer *)

Module BufferFacts.
Import utils.

Lemma succ_mod_wrap (j k : nat) :
  (j mod k = k - 1)%nat -> (0 < k)%nat -> (S j mod k = 0)%nat.
Proof.
  intros Hlast Hk. symmetry.
  apply (Nat.mod_unique (S j) k (S (j / k)) 0); [lia|].
  pose proof (Nat.div_mod_eq j k). nia.
Qed.

Lemma succ_mod_step (j k : nat) :
  (j mod k <> k - 1)%nat -> (0 < k)%nat -> (S j mod k = S (j mod k))%nat.
Proof.
  intros Hmid Hk. symmetry.
  pose proof (Nat.mod_upper_bound j k ltac:(lia)).
  apply (Nat.mod_unique (S j) k (j / k) (S (j mod k))); [lia|].
  pose proof (Nat.div_mod_eq j k). nia.
Qed.

Section Cells.
Context {A : Type}.

Lemma store_length (mem : list A) (i : nat) (v : A) :
  List.length (store mem i v) = List.length mem.
Proof.
  revert i; induction mem as [|x rest IH]; intros [|j]; simpl; auto.
Qed.

Lemma nth_error_store_same (mem : list A) (i : nat) (v : A) :
  (i < List.length mem)%nat -> nth_error (store mem i v) i = Some v.
Proof.
  revert i; induction mem as [|x rest IH]; intros [|j] H; simpl in *;
    try lia; auto.
  apply IH; lia.
Qed.

Lemma nth_error_store_other (mem : list A) (i j : nat) (v : A) :
  i <> j -> nth_error (store mem i v) j = nth_error mem j.
Proof.
  revert i j; induction mem as [|x rest IH]; intros [|i] [|j] H; simpl;
    try reflexivity; try lia.
  apply IH; lia.
Qed.

Lemma fill_loop_defined (zero : A) (remaining : nat) :
  forall (buffer : list A) (i : nat),
  (i + remaining <= List.length buffer)%nat ->
  exists b',
    fill_loop zero buffer i remaining = Some b'
    /\ List.length b' = List.length buffer
    /\ (forall j, (i <= j < i + remaining)%nat -> nth_error b' j = Some zero)
    /\ (forall j, (j < i \/ i + remaining <= j)%nat ->
                  nth_error b' j = nth_error buffer j).
Proof.
  induction remaining as [|r IH]; intros buffer i Hlen; simpl.
  - exists buffer; repeat split; auto; intros; lia.
  - destruct (Nat.ltb_spec i (List.length buffer)) as [Hi|Hi]; [|lia].
    destruct (IH (store buffer i zero) (S i)) as (b' & E & Hl & Hz & Hrest).
    { rewrite store_length; lia. }
    exists b'; rewrite store_length in Hl; repeat split; auto.
    + intros j Hj. destruct (Nat.eq_dec j i) as [->|Hne].
      * rewrite Hrest by lia. now apply nth_error_store_same.
      * apply Hz; lia.
    + intros j Hj. rewrite Hrest by lia.
      apply nth_error_store_other; lia.
Qed.

Lemma fill_loop_overrun (zero : A) (remaining : nat) :
  forall (buffer : list A) (i : nat),
  (i <= List.length buffer < i + remaining)%nat ->
  fill_loop zero buffer i remaining = None.
Proof.
  induction remaining as [|r IH]; intros buffer i Hlen; simpl; [lia|].
  destruct (Nat.ltb_spec i (List.length buffer)) as [Hi|Hi]; [|reflexivity].
  apply IH; rewrite store_length; lia.
Qed.

(** Copying [remaining] cells from [s] to [d = dest + i] when the target
    does not start inside the part of the source still to be read. *)
Lemma copy_loop_safe (remaining : nat) :
  forall (mem : list A) (dest source i : nat),
  (dest <= source \/ source + i + remaining <= dest + i)%nat ->
  (source + i + remaining <= List.length mem)%nat ->
  (dest + i + remaining <= List.length mem)%nat ->
  exists mem',
    copy_loop mem dest source i remaining = Some mem'
    /\ List.length mem' = List.length mem
    /\ (forall j, (j < remaining)%nat ->
          nth_error mem' (dest + i + j) = nth_error mem (source + i + j))
    /\ (forall p, (p < dest + i \/ dest + i + remaining <= p)%nat ->
          nth_error mem' p = nth_error mem p).
Proof.
  induction remaining as [|r IH]; intros mem dest source i Hsafe Hs Hd; simpl.
  - exists mem; repeat split; auto; intros; lia.
  - destruct (nth_error mem (source + i)) as [v|] eqn:Ev;
      [|apply nth_error_None in Ev; lia].
    destruct (Nat.ltb_spec (dest + i) (List.length mem)) as [Hi|Hi]; [|lia].
    destruct (IH (store mem (dest + i) v) dest source (S i))
      as (mem' & E & Hl & Hcopy & Hrest);
      rewrite ?store_length; try lia.
    exists mem'; rewrite store_length in Hl; repeat split; auto.
    + intros [|j] Hj.
      * rewrite Nat.add_0_r, Hrest by lia.
        rewrite nth_error_store_same by lia. now rewrite Nat.add_0_r.
      * replace (dest + i + S j)%nat with (dest + S i + j)%nat by lia.
        rewrite Hcopy by lia.
        rewrite nth_error_store_other by lia. f_equal; lia.
    + intros p Hp. rewrite Hrest by lia.
      apply nth_error_store_other; lia.
Qed.

(** Copying forward by [k] cells: the first [k] cells of the source
    repeat. *)
Lemma copy_loop_forward (remaining : nat) :
  forall (mem : list A) (source k i : nat),
  (0 < k)%nat ->
  (source + k + i + remaining <= List.length mem)%nat ->
  exists mem',
    copy_loop mem (source + k) source i remaining = Some mem'
    /\ List.length mem' = List.length mem
    /\ (forall j, (j < remaining)%nat ->
          nth_error mem' (source + k + i + j)
          = nth_error mem (source + i + j mod k))
    /\ (forall p, (p < source + k + i \/ source + k + i + remaining <= p)%nat ->
          nth_error mem' p = nth_error mem p).
Proof.
  induction remaining as [|r IH]; intros mem source k i Hk Hlen; simpl.
  - exists mem; repeat split; auto; intros; lia.
  - destruct (nth_error mem (source + i)) as [v|] eqn:Ev;
      [|apply nth_error_None in Ev; lia].
    destruct (Nat.ltb_spec (source + k + i) (List.length mem)) as [Hi|Hi];
      [|lia].
    destruct (IH (store mem (source + k + i) v) source k (S i))
      as (mem' & E & Hl & Hcopy & Hrest);
      rewrite ?store_length; try lia.
    exists mem'; rewrite store_length in Hl; repeat split; auto.
    + intros [|j] Hj.
      * rewrite Nat.add_0_r, Hrest by lia.
        rewrite nth_error_store_same by lia.
        rewrite Nat.Div0.mod_0_l by lia. now rewrite Nat.add_0_r.
      * replace (source + k + i + S j)%nat with (source + k + S i + j)%nat
          by lia.
        rewrite Hcopy by lia.
        pose proof (Nat.mod_upper_bound j k ltac:(lia)) as Hm.
        destruct (Nat.eq_dec (j mod k) (k - 1)) as [Hlast|Hmid].
        -- replace (source + S i + j mod k)%nat with (source + k + i)%nat
             by lia.
           rewrite nth_error_store_same by lia.
           rewrite (succ_mod_wrap j k Hlast Hk), Nat.add_0_r.
           now rewrite Ev.
        -- rewrite nth_error_store_other by lia.
           rewrite (succ_mod_step j k Hmid Hk). f_equal; lia.
    + intros p Hp. rewrite Hrest by lia.
      apply nth_error_store_other; lia.
Qed.

End Cells.

(** X7. [zeroBuffer] on a buffer that holds [size] cells gives a buffer
    of the same length whose first [size] cells are zero and whose other
    cells are untouched; with a size of zero or less it changes nothing;
    with a size beyond the buffer it writes outside it.  The overload for
    [int] buffers does the same. *)
Theorem zeroBuffer_fills
  {T : Type} {ops : MopoFloat T} (buffer : list T) (ints : list Z) (size : Z) :
  ((size <= Z.of_nat (List.length buffer))%Z ->
   exists b',
     zeroBuffer buffer size = Some b'
     /\ List.length b' = List.length buffer
     /\ (forall i, (i < Z.to_nat size)%nat ->
           nth_error b' i = Some zero_literal)
     /\ (forall i, (Z.to_nat size <= i)%nat ->
           nth_error b' i = nth_error buffer i))
  /\ ((size <= Z.of_nat (List.length ints))%Z ->
      exists b',
        zeroBuffer_int ints size = Some b'
        /\ List.length b' = List.length ints
        /\ (forall i, (i < Z.to_nat size)%nat -> nth_error b' i = Some 0%Z)
        /\ (forall i, (Z.to_nat size <= i)%nat ->
              nth_error b' i = nth_error ints i))
  /\ ((size <= 0)%Z ->
      zeroBuffer buffer size = Some buffer
      /\ zeroBuffer_int ints size = Some ints)
  /\ ((Z.of_nat (List.length buffer) < size)%Z ->
      zeroBuffer buffer size = None).
Proof.
  unfold zeroBuffer, zeroBuffer_int.
  split; [|split; [|split]].
  - intros Hlen.
    destruct (fill_loop_defined zero_literal (Z.to_nat size) buffer 0)
      as (b' & E & Hl & Hz & Hrest); [lia|].
    exists b'; split; [exact E|]; split; [exact Hl|]; split; intros.
    + apply Hz; lia.
    + apply Hrest; lia.
  - intros Hlen.
    destruct (fill_loop_defined 0%Z (Z.to_nat size) ints 0)
      as (b' & E & Hl & Hz & Hrest); [lia|].
    exists b'; split; [exact E|]; split; [exact Hl|]; split; intros.
    + apply Hz; lia.
    + apply Hrest; lia.
  - intros Hneg. replace (Z.to_nat size) with 0%nat by lia.
    split; reflexivity.
  - intros Hlen; apply fill_loop_overrun; lia.
Qed.

(** X8. [copyBuffer], and [copyBufferf] alike, when both ranges lie in
    memory and the target does not start inside the source after its
    first cell (it starts at or below the source, or past its end): the
    target range then holds what the source range held before the call,
    and every cell outside the target range is untouched. *)
Theorem copyBuffer_copies
  {T : Type} (mem : list T) (dest source : nat) (size : Z) :
  (dest <= source \/ source + Z.to_nat size <= dest)%nat ->
  (source + Z.to_nat size <= List.length mem)%nat ->
  (dest + Z.to_nat size <= List.length mem)%nat ->
  exists mem',
    copyBuffer mem dest source size = Some mem'
    /\ copyBufferf mem dest source size = Some mem'
    /\ List.length mem' = List.length mem
    /\ (forall j, (j < Z.to_nat size)%nat ->
          nth_error mem' (dest + j) = nth_error mem (source + j))
    /\ (forall p, (p < dest \/ dest + Z.to_nat size <= p)%nat ->
          nth_error mem' p = nth_error mem p).
Proof.
  intros Hsafe Hs Hd.
  destruct (copy_loop_safe (Z.to_nat size) mem dest source 0)
    as (mem' & E & Hl & Hcopy & Hrest); try lia.
  exists mem'; unfold copyBuffer, copyBufferf; repeat split; auto.
  - intros j Hj. specialize (Hcopy j Hj).
    now rewrite !Nat.add_0_r in Hcopy.
  - intros p Hp. apply Hrest; lia.
Qed.

Lemma copyBuffer_copies_witness :
  exists mem',
    copyBuffer [1; 2; 3; 4; 5]%Z 0 1 3 = Some mem'
    /\ copyBufferf [1; 2; 3; 4; 5]%Z 0 1 3 = Some mem'
    /\ List.length mem' = List.length [1; 2; 3; 4; 5]%Z
    /\ (forall j, (j < Z.to_nat 3)%nat ->
          nth_error mem' (0 + j) = nth_error [1; 2; 3; 4; 5]%Z (1 + j))
    /\ (forall p, (p < 0 \/ 0 + Z.to_nat 3 <= p)%nat ->
          nth_error mem' p = nth_error [1; 2; 3; 4; 5]%Z p).
Proof.
  apply (copyBuffer_copies [1; 2; 3; 4; 5]%Z 0 1 3); simpl; lia.
Defined.

(** X9. [copyBuffer] with the target [k >= 1] cells above the source,
    both ranges in memory: the loop reads cells it has already written,
    so the target range ends up holding the first [k] cells of the source
    over and over; every cell outside the target range is untouched. *)
Theorem copyBuffer_forward_overlap
  {T : Type} (mem : list T) (source k : nat) (size : Z) :
  (0 < k)%nat ->
  (source + k + Z.to_nat size <= List.length mem)%nat ->
  exists mem',
    copyBuffer mem (source + k) source size = Some mem'
    /\ List.length mem' = List.length mem
    /\ (forall j, (j < Z.to_nat size)%nat ->
          nth_error mem' (source + k + j) = nth_error mem (source + j mod k))
    /\ (forall p, (p < source + k \/ source + k + Z.to_nat size <= p)%nat ->
          nth_error mem' p = nth_error mem p).
Proof.
  intros Hk Hlen.
  destruct (copy_loop_forward (Z.to_nat size) mem source k 0)
    as (mem' & E & Hl & Hcopy & Hrest); try lia.
  exists mem'; unfold copyBuffer; repeat split; auto.
  - intros j Hj. specialize (Hcopy j Hj).
    now rewrite !Nat.add_0_r in Hcopy.
  - intros p Hp. apply Hrest; lia.
Qed.

Lemma copyBuffer_forward_overlap_witness :
  exists mem',
    copyBuffer [1; 2; 3; 4; 5; 6]%Z (0 + 2) 0 4 = Some mem'
    /\ List.length mem' = List.length [1; 2; 3; 4; 5; 6]%Z
    /\ (forall j, (j < Z.to_nat 4)%nat ->
          nth_error mem' (0 + 2 + j)
          = nth_error [1; 2; 3; 4; 5; 6]%Z (0 + j mod 2))
    /\ (forall p, (p < 0 + 2 \/ 0 + 2 + Z.to_nat 4 <= p)%nat ->
          nth_error mem' p = nth_error [1; 2; 3; 4; 5; 6]%Z p).
Proof.
  apply (copyBuffer_forward_overlap [1; 2; 3; 4; 5; 6]%Z 0 2 4); simpl; lia.
Defined.

End BufferFacts.

(** ** isSilent at the edges *)

Module SilenceEdges.
Import IEEE FloatOrder SilenceFacts.

Lemma closeToZero_zero_literal :
  utils.closeToZero (utils.zero_literal : spec_float) = true.
Proof. vm_compute; reflexivity. Qed.

Section Loop.
Variable buffer : list spec_float.

(** The loop stops at the first sample that is not close to zero. *)
Lemma isSilent_loop_first_loud (i : nat) (v : spec_float) :
  nth_error buffer i = Some v -> utils.closeToZero v = false ->
  forall remaining k : nat,
    (k <= i < k + remaining)%nat ->
    (forall j w, (k <= j < i)%nat -> nth_error buffer j = Some w ->
                 utils.closeToZero w = true) ->
    utils.isSilent_loop buffer k remaining = Some false.
Proof.
  intros Hv Hloud; induction remaining as [|r IH]; intros k Hk Hquiet;
    [lia|]; simpl.
  destruct (Nat.eq_dec k i) as [->|Hne].
  - now rewrite Hv, Hloud.
  - destruct (nth_error buffer k) as [w|] eqn:E.
    + rewrite (Hquiet k w) by (auto; lia).
      apply IH; [lia|]. intros j w' Hj; apply Hquiet; lia.
    + apply nth_error_None in E.
      assert (nth_error buffer i <> None) by congruence.
      apply nth_error_Some in H; lia.
Qed.

(** The loop reads outside the buffer exactly when it is asked about more
    samples than there are and none of those it reaches is loud. *)
Lemma isSilent_loop_undefined (remaining k : nat) :
  (k <= List.length buffer)%nat ->
  utils.isSilent_loop buffer k remaining = None <->
  (List.length buffer < k + remaining)%nat
  /\ (forall j w, (k <= j)%nat -> nth_error buffer j = Some w ->
                  utils.closeToZero w = true).
Proof.
  revert k; induction remaining as [|r IH]; intros k Hk; simpl.
  - split; [discriminate | lia].
  - destruct (nth_error buffer k) as [v|] eqn:E.
    + assert (Hlt : (k < List.length buffer)%nat)
        by (apply nth_error_Some; congruence).
      destruct (utils.closeToZero v) eqn:Ev.
      * rewrite IH by lia; split; intros [Hlen Hq]; split; try lia.
        -- intros j w Hj Hw. destruct (Nat.eq_dec j k) as [->|Hne].
           ++ congruence.
           ++ apply (Hq j w); [lia | assumption].
        -- intros j w Hj; apply Hq; lia.
      * split; [discriminate|]. intros [_ Hq].
        rewrite (Hq k v) in Ev; [discriminate | lia | assumption].
    + apply nth_error_None in E. split; [intros _ | reflexivity].
      split; [lia|]. intros j w Hj Hw.
      assert (nth_error buffer j <> None) by congruence.
      apply nth_error_Some in H; lia.
Qed.

(** A true answer carries over to every shorter run from the same
    index. *)
Lemma isSilent_loop_shorter (remaining k shorter : nat) :
  (shorter <= remaining)%nat ->
  utils.isSilent_loop buffer k remaining = Some true ->
  utils.isSilent_loop buffer k shorter = Some true.
Proof.
  revert k shorter; induction remaining as [|r IH]; intros k s Hs H.
  - now replace s with 0%nat by lia.
  - destruct s as [|s]; [reflexivity|]. simpl in *.
    destruct (nth_error buffer k) as [v|]; [|discriminate].
    destruct (utils.closeToZero v); [|discriminate].
    apply IH; [lia | assumption].
Qed.

(** A false answer carries over to every longer run from the same
    index. *)
Lemma isSilent_loop_longer (remaining k longer : nat) :
  (remaining <= longer)%nat ->
  utils.isSilent_loop buffer k remaining = Some false ->
  utils.isSilent_loop buffer k longer = Some false.
Proof.
  revert k longer; induction remaining as [|r IH]; intros k l Hl H;
    [discriminate|].
  destruct l as [|l]; [lia|]. simpl in *.
  destruct (nth_error buffer k) as [v|]; [|discriminate].
  destruct (utils.closeToZero v); [|reflexivity].
  apply IH; [lia | assumption].
Qed.

End Loop.

(** X10. [closeToZero] does not look at the sign: a value and its negation
    get the same answer.  Both zeros are close to zero, and a value that
    is close to zero is finite: the infinities and NaN are not. *)
Theorem closeToZero_sign_blind (v : spec_float) (s : bool) :
  utils.closeToZero (SFopp v) = utils.closeToZero v
  /\ utils.closeToZero (S754_zero s) = true
  /\ (utils.closeToZero v = true -> is_finite v = true).
Proof.
  rewrite !closeToZero_abs, SignFacts.SFabs_opp.
  split; [reflexivity|]. split.
  - now destruct s.
  - rewrite EPSILON_value; destruct v as [[]|[]| |[] m e]; simpl;
      try discriminate; reflexivity.
Qed.

(** X11. [isSilent] stops at the first sample that is not close to zero:
    when it lies among the samples asked about, the answer is false
    whatever comes after it, also when the length asked about is beyond
    the end of the buffer. *)
Theorem isSilent_first_loud (b : list spec_float) (n : Z) (i : nat)
  (v : spec_float) :
  nth_error b i = Some v -> SFleb (SFabs v) utils.EPSILON = false ->
  (forall j w, (j < i)%nat -> nth_error b j = Some w ->
               SFleb (SFabs w) utils.EPSILON = true) ->
  (Z.of_nat i < n)%Z ->
  utils.isSilent b n = Some false.
Proof.
  intros Hv Hloud Hquiet Hi.
  apply (isSilent_loop_first_loud b i v); auto.
  - now rewrite closeToZero_abs.
  - lia.
  - intros j w Hj Hw; rewrite closeToZero_abs; apply (Hquiet j w); auto; lia.
Qed.

Lemma isSilent_first_loud_witness :
  utils.isSilent [pos_zero; one] 7 = Some false.
Proof.
  apply (isSilent_first_loud [pos_zero; one] 7 1 one).
  - reflexivity.
  - vm_compute; reflexivity.
  - intros [|j] w Hj Hw; [|lia]. injection Hw as <-. vm_compute; reflexivity.
  - lia.
Defined.

(** X12. [isSilent] reads outside the buffer exactly when the length asked
    about is greater than the number of samples the buffer holds and
    every sample of the buffer has an absolute value of at most
    [EPSILON]. *)
Theorem isSilent_undefined_iff (b : list spec_float) (n : Z) :
  utils.isSilent b n = None <->
  (Z.of_nat (List.length b) < n)%Z
  /\ (forall j w, nth_error b j = Some w ->
                  SFleb (SFabs w) utils.EPSILON = true).
Proof.
  unfold utils.isSilent; rewrite isSilent_loop_undefined by lia.
  split; intros [Hlen Hq]; (split; [lia|]); intros j w.
  - intros Hw; rewrite <- closeToZero_abs; apply (Hq j w); [lia | assumption].
  - intros _ Hw; rewrite closeToZero_abs; now apply (Hq j w).
Qed.

(** X13. The answer of [isSilent] only gets worse with the length: a
    length of zero or less gives true; a true answer for a length stays
    true for every smaller length; a false answer stays false for every
    greater length, also one beyond the end of the buffer. *)
Theorem isSilent_in_length (b : list spec_float) (n m : Z) :
  ((n <= 0)%Z -> utils.isSilent b n = Some true)
  /\ ((m <= n)%Z -> utils.isSilent b n = Some true ->
      utils.isSilent b m = Some true)
  /\ ((n <= m)%Z -> utils.isSilent b n = Some false ->
      utils.isSilent b m = Some false).
Proof.
  unfold utils.isSilent; split; [|split].
  - intros Hn; now replace (Z.to_nat n) with 0%nat by lia.
  - intros Hm; apply isSilent_loop_shorter; lia.
  - intros Hm; apply isSilent_loop_longer; lia.
Qed.

(** X14. After [zeroBuffer] has cleared the first [size] samples of a
    buffer, [isSilent] answers true for that length, whatever the buffer
    held before. *)
Theorem zeroBuffer_then_silent (b : list spec_float) (size : Z) :
  (size <= Z.of_nat (List.length b))%Z ->
  exists b', utils.zeroBuffer b size = Some b'
             /\ utils.isSilent b' size = Some true.
Proof.
  intros Hlen.
  destruct (BufferFacts.fill_loop_defined utils.zero_literal
              (Z.to_nat size) b 0) as (b' & E & Hl & Hz & _); [lia|].
  exists b'; split; [exact E|].
  unfold utils.isSilent; apply isSilent_loop_true; [lia|].
  intros j v Hj Hv. rewrite (Hz j) in Hv by lia.
  injection Hv as <-. apply closeToZero_zero_literal.
Qed.

Lemma zeroBuffer_then_silent_witness :
  exists b', utils.zeroBuffer [one; half; one] 2 = Some b'
             /\ utils.isSilent b' 2 = Some true.
Proof. apply (zeroBuffer_then_silent [one; half; one] 2); simpl; lia. Defined.

End SilenceEdges.

(** ** The conversions over the reals *)

Module ConversionFacts.
Import Ideal RealFacts ResonanceFacts.
Open Scope R_scope.

Lemma ln_2_pos : 0 < ln 2.
Proof. rewrite <- ln_1; apply ln_increasing; lra. Qed.

Lemma ln_10_pos : 0 < ln 10.
Proof. rewrite <- ln_1; apply ln_increasing; lra. Qed.

Lemma MIDI_0_FREQUENCY_pos : 0 < utils.MIDI_0_FREQUENCY.
Proof.
  unfold utils.MIDI_0_FREQUENCY; simpl.
  apply Rdiv_lt_0_compat; lra.
Qed.

Lemma gainToDb_ideal (g : R) : utils.gainToDb g = 20 * (ln g / ln 10).
Proof.
  unfold utils.gainToDb, utils.DB_GAIN_CONVERSION_MULT; simpl.
  f_equal; lra.
Qed.

Lemma dbToGain_ideal (d : R) : utils.dbToGain d = exp (d / 20 * ln 10).
Proof.
  unfold utils.dbToGain, utils.DB_GAIN_CONVERSION_MULT, Rpower; simpl.
  replace (100 / (10 * 1)) with 10 by lra.
  replace (200 / (10 * 1)) with 20 by lra. reflexivity.
Qed.

Lemma centsToRatio_ideal (c : R) :
  utils.centsToRatio c = exp (c / 1200 * ln 2).
Proof.
  unfold utils.centsToRatio, Rpower; simpl.
  replace (20 / (10 * 1)) with 2 by lra. reflexivity.
Qed.

Lemma midiCentsToFrequency_ideal (c : R) :
  utils.midiCentsToFrequency c
  = utils.MIDI_0_FREQUENCY * exp (c / 1200 * ln 2).
Proof.
  unfold utils.midiCentsToFrequency; rewrite centsToRatio_ideal.
  reflexivity.
Qed.

Lemma midiNoteToFrequency_ideal (n : R) :
  utils.midiNoteToFrequency n
  = utils.MIDI_0_FREQUENCY * exp (n / 12 * ln 2).
Proof.
  unfold utils.midiNoteToFrequency, utils.midiCentsToFrequency.
  rewrite centsToRatio_ideal; unfold utils.CENTS_PER_NOTE; simpl.
  do 2 f_equal. lra.
Qed.

Lemma frequencyToMidiNote_ideal (f : R) :
  utils.frequencyToMidiNote f
  = 12 * ln (f / utils.MIDI_0_FREQUENCY) / ln 2.
Proof.
  unfold utils.frequencyToMidiNote; simpl.
  replace (20 / (10 * 1)) with 2 by lra. reflexivity.
Qed.

Lemma frequencyToMidiCents_ideal (f : R) :
  utils.frequencyToMidiCents f
  = 100 * (12 * ln (f / utils.MIDI_0_FREQUENCY) / ln 2).
Proof.
  unfold utils.frequencyToMidiCents; rewrite frequencyToMidiNote_ideal.
  reflexivity.
Qed.

(** X15. Over the reals [dbToGain] and [gainToDb] undo each other: a
    positive gain comes back from its decibels, and every level in
    decibels comes back from its gain. *)
Theorem decibel_round_trip (g d : R) :
  0 < g ->
  utils.dbToGain (utils.gainToDb g) = g
  /\ utils.gainToDb (utils.dbToGain d) = d.
Proof.
  intros Hg; pose proof ln_10_pos as H10.
  rewrite !dbToGain_ideal, !gainToDb_ideal; split.
  - replace (20 * (ln g / ln 10) / 20 * ln 10) with (ln g) by (field; lra).
    now apply exp_ln.
  - rewrite ln_exp; field; lra.
Qed.

Lemma decibel_round_trip_witness :
  utils.dbToGain (utils.gainToDb 2) = 2
  /\ utils.gainToDb (utils.dbToGain 3) = 3.
Proof. apply (decibel_round_trip 2 3); lra. Defined.

(** X16. Over the reals decibels add where gains multiply: the level of a
    product of positive gains is the sum of the levels, the gain of a
    sum of levels is the product of the gains; unit gain is 0 dB and a
    factor of ten is 20 dB. *)
Theorem decibels_add (a b x y : R) :
  0 < a -> 0 < b ->
  utils.gainToDb (a * b) = utils.gainToDb a + utils.gainToDb b
  /\ utils.dbToGain (x + y) = utils.dbToGain x * utils.dbToGain y
  /\ utils.gainToDb 1 = 0
  /\ utils.gainToDb 10 = 20.
Proof.
  intros Ha Hb; pose proof ln_10_pos as H10.
  rewrite !dbToGain_ideal, !gainToDb_ideal; repeat split.
  - rewrite ln_mult by assumption. field; lra.
  - rewrite <- exp_plus; f_equal; lra.
  - rewrite ln_1; field; lra.
  - field; lra.
Qed.

Lemma decibels_add_witness :
  utils.gainToDb (2 * 3) = utils.gainToDb 2 + utils.gainToDb 3
  /\ utils.dbToGain (1 + 2) = utils.dbToGain 1 * utils.dbToGain 2
  /\ utils.gainToDb 1 = 0
  /\ utils.gainToDb 10 = 20.
Proof. apply (decibels_add 2 3 1 2); lra. Defined.

(** X17. Over the reals the MIDI conversions undo each other in both
    directions, in notes and in cents: every note comes back from its
    frequency, and a positive frequency from its note. *)
Theorem midi_inverses (n c f : R) :
  0 < f ->
  utils.frequencyToMidiNote (utils.midiNoteToFrequency n) = n
  /\ utils.midiNoteToFrequency (utils.frequencyToMidiNote f) = f
  /\ utils.frequencyToMidiCents (utils.midiCentsToFrequency c) = c
  /\ utils.midiCentsToFrequency (utils.frequencyToMidiCents f) = f.
Proof.
  intros Hf; pose proof ln_2_pos as H2.
  pose proof MIDI_0_FREQUENCY_pos as H0.
  assert (Hq : 0 < f / utils.MIDI_0_FREQUENCY)
    by now apply Rdiv_lt_0_compat.
  rewrite !frequencyToMidiCents_ideal, !midiCentsToFrequency_ideal,
    !frequencyToMidiNote_ideal, !midiNoteToFrequency_ideal.
  repeat split.
  - replace (utils.MIDI_0_FREQUENCY * exp (n / 12 * ln 2)
             / utils.MIDI_0_FREQUENCY)
      with (exp (n / 12 * ln 2)) by (field; lra).
    rewrite ln_exp; field; lra.
  - replace (12 * ln (f / utils.MIDI_0_FREQUENCY) / ln 2 / 12 * ln 2)
      with (ln (f / utils.MIDI_0_FREQUENCY)) by (field; lra).
    rewrite exp_ln by assumption. field; lra.
  - replace (utils.MIDI_0_FREQUENCY * exp (c / 1200 * ln 2)
             / utils.MIDI_0_FREQUENCY)
      with (exp (c / 1200 * ln 2)) by (field; lra).
    rewrite ln_exp; field; lra.
  - replace (100 * (12 * ln (f / utils.MIDI_0_FREQUENCY) / ln 2)
             / 1200 * ln 2)
      with (ln (f / utils.MIDI_0_FREQUENCY)) by (field; lra).
    rewrite exp_ln by assumption. field; lra.
Qed.

Lemma midi_inverses_witness :
  utils.frequencyToMidiNote (utils.midiNoteToFrequency 69) = 69
  /\ utils.midiNoteToFrequency (utils.frequencyToMidiNote 440) = 440
  /\ utils.frequencyToMidiCents (utils.midiCentsToFrequency 6900) = 6900
  /\ utils.midiCentsToFrequency (utils.frequencyToMidiCents 440) = 440.
Proof. apply (midi_inverses 69 6900 440); lra. Defined.

(** X18. Over the reals twelve notes, or 1200 cents, are one octave: the
    frequency doubles.  Ratios of cents multiply where cents add, note 0
    has the frequency [MIDI_0_FREQUENCY], and a doubled frequency lies
    twelve notes higher. *)
Theorem octave_doubles (n a b f : R) :
  0 < f ->
  utils.midiNoteToFrequency (n + 12) = 2 * utils.midiNoteToFrequency n
  /\ utils.centsToRatio (a + b) = utils.centsToRatio a * utils.centsToRatio b
  /\ utils.centsToRatio 1200 = 2
  /\ utils.midiNoteToFrequency 0 = utils.MIDI_0_FREQUENCY
  /\ utils.frequencyToMidiNote (2 * f) = utils.frequencyToMidiNote f + 12.
Proof.
  intros Hf; pose proof ln_2_pos as H2.
  pose proof MIDI_0_FREQUENCY_pos as H0.
  rewrite !frequencyToMidiNote_ideal, !midiNoteToFrequency_ideal,
    !centsToRatio_ideal.
  repeat split.
  - replace ((n + 12) / 12 * ln 2) with (ln 2 + n / 12 * ln 2) by lra.
    rewrite exp_plus, exp_ln by lra. ring.
  - rewrite <- exp_plus; f_equal; lra.
  - replace (1200 / 1200 * ln 2) with (ln 2) by lra. apply exp_ln; lra.
  - replace (0 / 12 * ln 2) with 0 by lra. rewrite exp_0; ring.
  - replace (2 * f / utils.MIDI_0_FREQUENCY)
      with (2 * (f / utils.MIDI_0_FREQUENCY)) by (field; lra).
    rewrite ln_mult by (try apply Rdiv_lt_0_compat; lra).
    field; lra.
Qed.

Lemma octave_doubles_witness :
  utils.midiNoteToFrequency (57 + 12) = 2 * utils.midiNoteToFrequency 57
  /\ utils.centsToRatio (700 + 500)
     = utils.centsToRatio 700 * utils.centsToRatio 500
  /\ utils.centsToRatio 1200 = 2
  /\ utils.midiNoteToFrequency 0 = utils.MIDI_0_FREQUENCY
  /\ utils.frequencyToMidiNote (2 * 220) = utils.frequencyToMidiNote 220 + 12.
Proof. apply (octave_doubles 57 700 500 220); lra. Defined.

(** X19. Over the reals pitch and frequency go up together: a higher note
    has a higher frequency, every note has a positive frequency, and of
    two positive frequencies the higher one has the higher note. *)
Theorem pitch_increasing (n m f g : R) :
  n < m -> 0 < f < g ->
  utils.midiNoteToFrequency n < utils.midiNoteToFrequency m
  /\ 0 < utils.midiNoteToFrequency n
  /\ utils.frequencyToMidiNote f < utils.frequencyToMidiNote g.
Proof.
  intros Hnm [Hf Hfg]; pose proof ln_2_pos as H2.
  pose proof MIDI_0_FREQUENCY_pos as H0.
  rewrite !frequencyToMidiNote_ideal, !midiNoteToFrequency_ideal.
  repeat split.
  - apply Rmult_lt_compat_l; [assumption|]. apply exp_increasing.
    apply Rmult_lt_compat_r; lra.
  - apply Rmult_lt_0_compat; [assumption | apply exp_pos].
  - assert (Hln : ln (f / utils.MIDI_0_FREQUENCY)
                  < ln (g / utils.MIDI_0_FREQUENCY)).
    { apply ln_increasing; [now apply Rdiv_lt_0_compat|].
      apply Rmult_lt_compat_r; [now apply Rinv_0_lt_compat | assumption]. }
    apply Rmult_lt_compat_r; [now apply Rinv_0_lt_compat | lra].
Qed.

Lemma pitch_increasing_witness :
  utils.midiNoteToFrequency 60 < utils.midiNoteToFrequency 69
  /\ 0 < utils.midiNoteToFrequency 60
  /\ utils.frequencyToMidiNote 220 < utils.frequencyToMidiNote 440.
Proof. apply (pitch_increasing 60 69 220 440); lra. Defined.

(** X20. Over the reals [magnitudeToQ] grows with the magnitude, from 1/2
    at magnitude 0 to 16 at magnitude 1, so that a magnitude in [[0, 1]]
    has a quality factor in [[1/2, 16]]. *)
Theorem magnitudeToQ_range (m m' : R) :
  m < m' ->
  utils.magnitudeToQ m < utils.magnitudeToQ m'
  /\ utils.magnitudeToQ 1 = 16
  /\ (0 <= m <= 1 -> 1 / 2 <= utils.magnitudeToQ m <= 16).
Proof.
  intros Hm.
  assert (Hmono : forall a b, a < b ->
            utils.magnitudeToQ a < utils.magnitudeToQ b).
  { intros a b Hab; rewrite !magnitudeToQ_ideal.
    apply Rpower_lt; lra. }
  assert (H0 : utils.magnitudeToQ 0 = 1 / 2).
  { rewrite magnitudeToQ_ideal.
    replace (5 * 0 - 1) with (- (1)) by lra.
    rewrite Rpower_Ropp, Rpower_1 by lra; lra. }
  assert (H1 : utils.magnitudeToQ 1 = 16).
  { rewrite magnitudeToQ_ideal.
    replace (5 * 1 - 1) with (INR 4) by (simpl; lra).
    rewrite Rpower_pow by lra. lra. }
  split; [now apply Hmono|]. split; [exact H1|].
  intros [Hlo Hhi]; split.
  - destruct Hlo as [Hlo|Hlo]; [|subst m; lra].
    rewrite <- H0; left; now apply Hmono.
  - destruct Hhi as [Hhi|Hhi]; [|subst m; lra].
    rewrite <- H1; left; now apply Hmono.
Qed.

Lemma magnitudeToQ_range_witness :
  utils.magnitudeToQ (1 / 4) < utils.magnitudeToQ (1 / 2)
  /\ utils.magnitudeToQ 1 = 16
  /\ (0 <= 1 / 4 <= 1 -> 1 / 2 <= utils.magnitudeToQ (1 / 4) <= 16).
Proof. apply (magnitudeToQ_range (1 / 4) (1 / 2)); lra. Defined.

(** X21. Over the reals [qToMagnitude] falls as the quality factor grows,
    and on a quality factor that is not negative it stays in
    [(1/5, 2/5]]: it reaches no magnitude outside that range. *)
Theorem qToMagnitude_falls (q q' : R) :
  q < q' ->
  utils.qToMagnitude q' < utils.qToMagnitude q
  /\ (0 <= q -> 1 / 5 < utils.qToMagnitude q <= 2 / 5).
Proof.
  intros Hq; pose proof ln_2_pos as H2.
  assert (Hhalf : ln (1 / 2) = - ln 2).
  { replace (1 / 2) with (/ 2) by lra. apply ln_Rinv; lra. }
  rewrite !qToMagnitude_ideal; unfold Rpower; rewrite Hhalf; split.
  - assert (exp (q' * - ln 2) < exp (q * - ln 2)); [|lra].
    apply exp_increasing. nra.
  - intros Hq0. pose proof (exp_pos (q * - ln 2)).
    assert (exp (q * - ln 2) <= 1); [|lra].
    rewrite <- exp_0; apply exp_le_mono. nra.
Qed.

Lemma qToMagnitude_falls_witness :
  utils.qToMagnitude 2 < utils.qToMagnitude 1
  /\ (0 <= 1 -> 1 / 5 < utils.qToMagnitude 1 <= 2 / 5).
Proof. apply (qToMagnitude_falls 1 2); lra. Defined.

End ConversionFacts.

(** ** Symmetry and shape of the approximations *)

Module SineSign.
Import IEEE SignFacts.

Lemma quickerSin_opp (p : spec_float) :
  utils.quickerSin (SFopp p) = SFopp (utils.quickerSin p).
Proof.
  unfold utils.quickerSin.
  change (@mf_mul _ ops) with (SFmul prec emax).
  change (@mf_abs _ ops) with SFabs.
  now rewrite SFabs_opp, SFmul_opp_l.
Qed.


End SineSign.

Module ShapeFacts.
Import Ideal Props RealFacts SineFacts TanhFacts.
Open Scope R_scope.

(** The difference of two values of [quickertanh], as one quotient. *)
Lemma quickertanh_difference (x y : R) :
  utils.quickertanh y - utils.quickertanh x
  = (y - x)
    * (15 * ((x - y) * (x - y)) + 6 * ((x * y - 15 / 4) * (x * y - 15 / 4))
       + 1125 / 8)
    / ((15 + 6 * (x * x)) * (15 + 6 * (y * y))).
Proof.
  rewrite !quickertanh_ideal.
  pose proof (Rle_0_sqr x) as Hx; pose proof (Rle_0_sqr y) as Hy.
  unfold Rsqr in *.
  field; split; lra.
Qed.

(** X23. Over the reals [quickertanh] is strictly increasing, and its
    magnitude never exceeds that of its argument. *)
Theorem quickertanh_increasing (x y : R) :
  x < y ->
  utils.quickertanh x < utils.quickertanh y
  /\ Rabs (utils.quickertanh x) <= Rabs x.
Proof.
  intros Hxy.
  pose proof (Rle_0_sqr x) as Hx; pose proof (Rle_0_sqr y) as Hy.
  pose proof (Rle_0_sqr (x - y)) as Hd.
  pose proof (Rle_0_sqr (x * y - 15 / 4)) as Hp.
  unfold Rsqr in *. split.
  - apply Rlt_0_minus. rewrite quickertanh_difference.
    apply Rdiv_lt_0_compat.
    + apply Rmult_lt_0_compat; lra.
    + apply Rmult_lt_0_compat; lra.
  - rewrite quickertanh_ideal.
    replace (x * (15 + x * x) / (15 + 6 * (x * x)))
      with (x * ((15 + x * x) / (15 + 6 * (x * x)))) by (field; lra).
    assert (Hk : 0 <= (15 + x * x) / (15 + 6 * (x * x)) <= 1).
    { split.
      - apply Rlt_le, Rdiv_lt_0_compat; lra.
      - apply Rmult_le_reg_r with (15 + 6 * (x * x)); [lra|].
        unfold Rdiv; rewrite Rmult_assoc, Rinv_l by lra. lra. }
    rewrite Rabs_mult, (Rabs_pos_eq _ (proj1 Hk)).
    pose proof (Rabs_pos x). nra.
Qed.

Lemma quickertanh_increasing_witness :
  utils.quickertanh 1 < utils.quickertanh 2
  /\ Rabs (utils.quickertanh 1) <= Rabs 1.
Proof. apply (quickertanh_increasing 1 2); lra. Defined.

Lemma quicktanh_dips : utils.quicktanh 7 < utils.quicktanh 5.
Proof.
  destruct coefficients_pos as (Ha & Hb & Hc & Hd & Hk).
  rewrite !quicktanh_ideal, !odd_quotient_nonneg by (assumption || lra).
  pose proof (halfline_den_pos 5 ltac:(lra)) as H5.
  pose proof (halfline_den_pos 7 ltac:(lra)) as H7.
  unfold halfline_den in H5, H7.
  apply Rmult_lt_reg_r with (qd + (qd + 5 * 5) * (5 + qk * 5 * 5));
    [assumption|].
  apply Rmult_lt_reg_r with (qd + (qd + 7 * 7) * (7 + qk * 7 * 7));
    [assumption|].
  unfold Rdiv.
  match goal with |- ?a * / ?d7 * ?d5 * ?d7' < ?b * / ?d5' * ?d5'' * ?d7'' =>
    replace (a * / d7 * d5 * d7) with (a * d5) by (field; lra);
    replace (b * / d5 * d5 * d7) with (b * d7) by (field; lra)
  end.
  unfold qa, qb, qc, qd, qk; lra.
Qed.

(** X24. [quicktanh] is not monotone: between 5 and 7 it falls, over the
    reals and in binary64 alike. *)
Theorem quicktanh_not_monotone :
  ~ (forall x y : R, x <= y -> utils.quicktanh x <= utils.quicktanh y)
  /\ SFltb (@utils.quicktanh _ IEEE.ops (@mf_int _ IEEE.ops 7))
           (@utils.quicktanh _ IEEE.ops (@mf_int _ IEEE.ops 5)) = true.
Proof.
  split.
  - intros H. specialize (H 5 7 ltac:(lra)).
    pose proof quicktanh_dips. lra.
  - vm_compute; reflexivity.
Qed.

(** [quickerSin1] is [quickerSin] after the change of phase. *)
Lemma quickerSin1_ideal (p : R) :
  utils.quickerSin1 p = utils.quickerSin (1 / 2 - p).
Proof.
  unfold utils.quickerSin1, utils.quickerSin; simpl.
  replace (5 / (10 * 1) - p) with (1 / 2 - p) by lra. reflexivity.
Qed.

Lemma quickSin1_ideal (p : R) :
  utils.quickSin1 p = utils.quickSin (1 / 2 - p).
Proof.
  unfold utils.quickSin1, utils.quickSin; cbv zeta.
  now rewrite quickerSin1_ideal.
Qed.

Lemma quickerSin1_low (p : R) :
  0 <= p <= 1 / 2 -> utils.quickerSin1 p = utils.quickerSin p.
Proof.
  intros Hp; rewrite quickerSin1_ideal, !quickerSin_ideal.
  rewrite !Rabs_pos_eq by lra. field.
Qed.

Lemma quickerSin1_high (p : R) :
  1 / 2 <= p <= 1 -> utils.quickerSin1 p = utils.quickerSin (p - 1).
Proof.
  intros Hp; rewrite quickerSin1_ideal, !quickerSin_ideal.
  rewrite !Rabs_left1 by lra. field.
Qed.

(** X25. Over the reals the versions for a phase in [[0, 1]] continue the
    versions for a phase in [[-1/2, 1/2]] with period 1: they agree with
    them on [[0, 1/2]], and on [[1/2, 1]] they take the value one period
    earlier.  So they too have a magnitude of at most one on their
    domain. *)
Theorem sin1_continues_sin (p : R) :
  0 <= p <= 1 ->
  (p <= 1 / 2 -> utils.quickerSin1 p = utils.quickerSin p
                 /\ utils.quickSin1 p = utils.quickSin p)
  /\ (1 / 2 <= p -> utils.quickerSin1 p = utils.quickerSin (p - 1)
                    /\ utils.quickSin1 p = utils.quickSin (p - 1))
  /\ Rabs (utils.quickerSin1 p) <= 1
  /\ Rabs (utils.quickSin1 p) <= 1.
Proof.
  intros Hp.
  assert (Hk : forall a b, utils.quickerSin1 a = utils.quickerSin b ->
                           utils.quickSin1 a = utils.quickSin b).
  { intros a b H; unfold utils.quickSin1, utils.quickSin; cbv zeta.
    now rewrite H. }
  split; [|split; [|split]].
  - intros H; pose proof (quickerSin1_low p ltac:(lra)); auto.
  - intros H; pose proof (quickerSin1_high p ltac:(lra)); auto.
  - rewrite quickerSin1_ideal; apply quickerSin_unit; lra.
  - rewrite quickSin1_ideal; apply quickSin_unit; lra.
Qed.

Lemma sin1_continues_sin_witness :
  (3 / 4 <= 1 / 2 -> utils.quickerSin1 (3 / 4) = utils.quickerSin (3 / 4)
                     /\ utils.quickSin1 (3 / 4) = utils.quickSin (3 / 4))
  /\ (1 / 2 <= 3 / 4 ->
      utils.quickerSin1 (3 / 4) = utils.quickerSin (3 / 4 - 1)
      /\ utils.quickSin1 (3 / 4) = utils.quickSin (3 / 4 - 1))
  /\ Rabs (utils.quickerSin1 (3 / 4)) <= 1
  /\ Rabs (utils.quickSin1 (3 / 4)) <= 1.
Proof. apply (sin1_continues_sin (3 / 4)); lra. Defined.

End ShapeFacts.

Module SineShifted.
Import Rounded RealFacts SineRounded.
Open Scope R_scope.

(** X26. In every arithmetic that rounds to nearest with ties to even and
    in which 1/2 is representable, for a representable phase [p] in
    [[0, 1]], [quickerSin1] and [quickSin1] have a magnitude of at most
    one, provided the two weights of [quickSin1] add up to at most one
    in the format. *)
Theorem shifted_sin_unit (rnd : R -> R) (u p : R) :
  0 <= p <= 1 ->
  nearest_even rnd u -> weights_within_unit rnd ->
  rnd (1 / 2) = 1 / 2 -> rnd p = p ->
  Rabs (@utils.quickerSin1 R (ops rnd) p) <= 1
  /\ Rabs (@utils.quickSin1 R (ops rnd) p) <= 1.
Proof.
  intros Hp Hne Hw Hhalf Hrep.
  set (q := rnd (1 / 2 - p)).
  assert (Hq : rnd q = q) by apply (ne_idempotent _ _ Hne).
  assert (Hrange : Rabs q <= 1 / 2).
  { apply Rabs_le; unfold q; split.
    - replace (- (1 / 2)) with (rnd (- (1 / 2)))
        by (rewrite (ne_odd _ _ Hne), Hhalf; reflexivity).
      apply (ne_monotone _ _ Hne); lra.
    - rewrite <- Hhalf at 2. apply (ne_monotone _ _ Hne); lra. }
  assert (Hshift : @mf_sub R (ops rnd) (@dec R (ops rnd) 5 1) p = q).
  { unfold q; simpl.
    replace (5 / (10 * 1)) with (1 / 2) by lra.
    now rewrite Hhalf. }
  split.
  - change (@utils.quickerSin1 R (ops rnd) p)
      with (@utils.quickerSin R (ops rnd)
              (@mf_sub R (ops rnd) (@dec R (ops rnd) 5 1) p)).
    rewrite Hshift. now apply (quickerSin_rounded_unit rnd u).
  - change (@utils.quickSin1 R (ops rnd) p)
      with (@utils.quickSin R (ops rnd)
              (@mf_sub R (ops rnd) (@dec R (ops rnd) 5 1) p)).
    rewrite Hshift. now apply (quickSin_rounded_unit rnd u).
Qed.

Lemma three_quarters_in_domain : 0 <= 3 / 4 <= 1.
Proof. lra. Qed.

Lemma shifted_sin_unit_witness :
  Rabs (@utils.quickerSin1 R (ops (fun x : R => x)) (3 / 4)) <= 1
  /\ Rabs (@utils.quickSin1 R (ops (fun x : R => x)) (3 / 4)) <= 1.
Proof.
  exact (shifted_sin_unit (fun x : R => x) 0 (3 / 4)
           three_quarters_in_domain exact_nearest_even exact_weights
           eq_refl eq_refl).
Defined.

End SineShifted.

(** ** The cells of the selector *)

Module CellFacts.
Import TextSelector SelectorFacts.

(** Membership in a cell, without the fractions. *)
Lemma in_cell_integers (w : TextSelector) (i x : Z) :
  (0 < getWidth w)%Z -> (0 < num_types w)%Z ->
  in_cell w i x <->
  (i * getWidth w <= x * num_types w < (i + 1) * getWidth w)%Z.
Proof.
  intros Hw Hn; unfold in_cell, cell_width.
  set (W := getWidth w) in *. set (n := num_types w) in *.
  destruct W as [|pw|pw]; try lia. destruct n as [|pn|pn]; try lia.
  unfold Qle, Qlt; simpl.
  rewrite !Pos.mul_1_r, !Z.mul_1_r. lia.
Qed.

(** X27. The cells that [paint] lays out tile the width of the component:
    with a positive width and at least one entry, every pixel column of
    the component lies in exactly one cell, and that cell is one of the
    entries. *)
Theorem cells_tile (w : TextSelector) (x : Z) :
  (0 < getWidth w)%Z -> (0 < num_types w)%Z -> (0 <= x < getWidth w)%Z ->
  exists i : Z,
    (0 <= i < num_types w)%Z /\ in_cell w i x
    /\ forall j : Z, in_cell w j x -> j = i.
Proof.
  intros Hw Hn Hx.
  exists (x * num_types w / getWidth w)%Z.
  pose proof (Z.div_mod (x * num_types w) (getWidth w) ltac:(lia)) as Hdm.
  pose proof (Z.mod_pos_bound (x * num_types w) (getWidth w) Hw) as Hmod.
  set (i := (x * num_types w / getWidth w)%Z) in *.
  assert (Hi : (i * getWidth w <= x * num_types w < (i + 1) * getWidth w)%Z)
    by lia.
  split; [nia|]. split.
  - now apply in_cell_integers.
  - intros j Hj; apply in_cell_integers in Hj; try assumption. nia.
Qed.

Lemma cells_tile_witness :
  exists i : Z,
    (0 <= i < num_types {| getMinimum := 1; getMaximum := 4;
                           getWidth := 100 |})%Z
    /\ in_cell {| getMinimum := 1; getMaximum := 4; getWidth := 100 |} i 60
    /\ forall j : Z,
         in_cell {| getMinimum := 1; getMaximum := 4; getWidth := 100 |} j 60
         -> j = i.
Proof.
  apply (cells_tile {| getMinimum := 1; getMaximum := 4; getWidth := 100 |} 60);
    simpl; unfold num_types; simpl; lia.
Defined.

(** X28. On a selector whose range starts at 0, a press or a drag inside
    the component asks for the entry whose cell is under the pointer:
    the index lies in the range of the slider, and the pointer lies in
    the rectangle that [paint] fills for that value. *)
Theorem click_selects_cell (w : TextSelector) (x : Z) :
  (0 < getWidth w)%Z -> getMinimum w = 0%Z -> (0 <= getMaximum w)%Z ->
  (0 <= x < getWidth w)%Z ->
  exists i : Z,
    mouseDown w x = Some (setValue i)
    /\ mouseDrag w x = Some (setValue i)
    /\ (getMinimum w <= i <= getMaximum w)%Z
    /\ (fst (highlight w i) <= inject_Z x)%Q
    /\ (inject_Z x < fst (highlight w i) + snd (highlight w i))%Q.
Proof.
  intros Hw Hmin Hmax Hx.
  assert (Hn : num_types w = (getMaximum w + 1)%Z)
    by (unfold num_types; lia).
  exists (x * (getMaximum w + 1) / getWidth w)%Z.
  unfold mouseDown, mouseDrag.
  rewrite mouseEvent_request, Z.quot_div_nonneg by nia.
  pose proof (Z.div_mod (x * (getMaximum w + 1)) (getWidth w) ltac:(lia))
    as Hdm.
  pose proof (Z.mod_pos_bound (x * (getMaximum w + 1)) (getWidth w) Hw)
    as Hmod.
  set (i := (x * (getMaximum w + 1) / getWidth w)%Z) in *.
  assert (Hcell : in_cell w i x).
  { apply in_cell_integers; [assumption | lia |]. rewrite Hn; lia. }
  split; [reflexivity|]. split; [reflexivity|]. split; [nia|].
  destruct Hcell as [Hl Hr]; unfold highlight; simpl fst; simpl snd.
  split; [exact Hl|].
  setoid_replace (inject_Z i * cell_width w + cell_width w)%Q
    with ((inject_Z i + 1) * cell_width w)%Q by ring.
  exact Hr.
Qed.

Lemma click_selects_cell_witness :
  exists i : Z,
    mouseDown {| getMinimum := 0; getMaximum := 3; getWidth := 100 |} 60
    = Some (setValue i)
    /\ mouseDrag {| getMinimum := 0; getMaximum := 3; getWidth := 100 |} 60
       = Some (setValue i)
    /\ (getMinimum {| getMinimum := 0; getMaximum := 3; getWidth := 100 |}
        <= i
        <= getMaximum {| getMinimum := 0; getMaximum := 3; getWidth := 100 |})%Z
    /\ (fst (highlight {| getMinimum := 0; getMaximum := 3;
                          getWidth := 100 |} i) <= inject_Z 60)%Q
    /\ (inject_Z 60
        < fst (highlight {| getMinimum := 0; getMaximum := 3;
                            getWidth := 100 |} i)
          + snd (highlight {| getMinimum := 0; getMaximum := 3;
                              getWidth := 100 |} i))%Q.
Proof.
  apply (click_selects_cell
           {| getMinimum := 0; getMaximum := 3; getWidth := 100 |} 60);
    simpl; lia.
Defined.

(** X29. The index that [mouseEvent] asks for is not limited to the
    entries: with a positive width and a maximum of at least 0 it lies
    in [[0, maximum]] exactly when the pointer is left of the right edge
    and less than one cell left of the left edge.  A pointer dragged
    past the right edge asks for more than the maximum, one dragged far
    to the left for a negative index. *)
Theorem requested_index_range (w : TextSelector) (x : Z) :
  (0 < getWidth w)%Z -> (0 <= getMaximum w)%Z ->
  exists i : Z,
    mouseEvent w x = Some (setValue i)
    /\ ((0 <= i <= getMaximum w)%Z <->
        (- getWidth w < x * (getMaximum w + 1))%Z /\ (x < getWidth w)%Z).
Proof.
  intros Hw Hmax.
  exists (Z.quot (x * (getMaximum w + 1)) (getWidth w)).
  split; [now apply mouseEvent_request|].
  set (W := getWidth w) in *. set (m := getMaximum w) in *.
  destruct (Z.le_gt_cases 0 x) as [Hx|Hx].
  - rewrite Z.quot_div_nonneg by nia.
    pose proof (Z.div_mod (x * (m + 1)) W ltac:(lia)) as Hdm.
    pose proof (Z.mod_pos_bound (x * (m + 1)) W Hw) as Hmod.
    set (i := (x * (m + 1) / W)%Z) in *. clearbody i.
    split; intros H; nia.
  - replace (x * (m + 1))%Z with (- (- x * (m + 1)))%Z by ring.
    rewrite Z.quot_opp_l by lia.
    rewrite Z.quot_div_nonneg by nia.
    pose proof (Z.div_mod (- x * (m + 1)) W ltac:(lia)) as Hdm.
    pose proof (Z.mod_pos_bound (- x * (m + 1)) W Hw) as Hmod.
    set (i := (- x * (m + 1) / W)%Z) in *. clearbody i.
    split; intros H; nia.
Qed.

Lemma requested_index_range_witness :
  exists i : Z,
    mouseEvent {| getMinimum := 0; getMaximum := 3; getWidth := 100 |} 130
    = Some (setValue i)
    /\ ((0 <= i
         <= getMaximum {| getMinimum := 0; getMaximum := 3;
                          getWidth := 100 |})%Z <->
        (- getWidth {| getMinimum := 0; getMaximum := 3; getWidth := 100 |}
         < 130 * (getMaximum {| getMinimum := 0; getMaximum := 3;
                                getWidth := 100 |} + 1))%Z
        /\ (130 < getWidth {| getMinimum := 0; getMaximum := 3;
                              getWidth := 100 |})%Z).
Proof.
  apply (requested_index_range
           {| getMinimum := 0; getMaximum := 3; getWidth := 100 |} 130);
    simpl; lia.
Defined.

Lemma highlight_positive (selected : Z) (pw pn : positive) :
  ((0 <= inject_Z selected * (inject_Z (Zpos pw) / inject_Z (Zpos pn)))%Q
   /\ (inject_Z selected * (inject_Z (Zpos pw) / inject_Z (Zpos pn))
       + inject_Z (Zpos pw) / inject_Z (Zpos pn) <= inject_Z (Zpos pw))%Q)
  <-> (0 <= selected /\ selected + 1 <= Zpos pn)%Z.
Proof.
  unfold Qle, Qplus, Qmult, Qdiv, Qinv, inject_Z; simpl.
  rewrite ?Pos.mul_1_r, ?Z.mul_1_r, ?Z.mul_1_l, ?Pos2Z.inj_mul.
  split; intros H; nia.
Qed.

(** X30. [paint] takes the value of the slider for the number of the
    cell: with a positive width and at least one entry the filled
    rectangle lies within the component exactly when the value lies in
    [[0, maximum - minimum]].  On a range that starts above 0 the
    rectangle of the maximum lies beyond the right edge. *)
Theorem highlight_inside_iff (w : TextSelector) (selected : Z) :
  (0 < getWidth w)%Z -> (0 < num_types w)%Z ->
  ((0 <= fst (highlight w selected))%Q
   /\ (fst (highlight w selected) + snd (highlight w selected)
       <= inject_Z (getWidth w))%Q)
  <-> (0 <= selected <= getMaximum w - getMinimum w)%Z.
Proof.
  intros Hw Hn.
  assert (Hm : (getMaximum w - getMinimum w = num_types w - 1)%Z)
    by (unfold num_types; lia).
  rewrite Hm; unfold highlight, cell_width; simpl fst; simpl snd.
  destruct (getWidth w) as [|pw|pw]; try lia.
  destruct (num_types w) as [|pn|pn]; try lia.
  rewrite highlight_positive; lia.
Qed.

Lemma highlight_inside_iff_witness :
  ((0 <= fst (highlight {| getMinimum := 1; getMaximum := 4;
                           getWidth := 100 |} 4))%Q
   /\ (fst (highlight {| getMinimum := 1; getMaximum := 4;
                         getWidth := 100 |} 4)
       + snd (highlight {| getMinimum := 1; getMaximum := 4;
                           getWidth := 100 |} 4)
       <= inject_Z (getWidth {| getMinimum := 1; getMaximum := 4;
                                getWidth := 100 |}))%Q)
  <-> (0 <= 4 <= getMaximum {| getMinimum := 1; getMaximum := 4;
                               getWidth := 100 |}
               - getMinimum {| getMinimum := 1; getMaximum := 4;
                               getWidth := 100 |})%Z.
Proof.
  apply (highlight_inside_iff
           {| getMinimum := 1; getMaximum := 4; getWidth := 100 |} 4);
    unfold num_types; simpl; lia.
Defined.

End CellFacts.
